(** * Brute-force frequent itemset mining and association rules

    Shallow embedding of the brute-force miner of the repository:
    - [src/algorithms_brute_force.py] ([load_transactions], [get_support_count],
      [is_frequent], [brute_force_mining], [generate_association_rules]);
    - [src/src/brute_force_mining.py] (class [BruteForceMiner]);
    - [src/main.py] (class [InteractiveMiner], brute-force part).

    Modelling choices.
    - Items are opaque comparable tokens (normalised strings in the code);
      they are modelled as [nat], with [<] as the order [sorted] uses.
    - A [frozenset] is a list read with set semantics ([issubset] and [-]
      only test membership).  The order in which [list(itemset)] walks a
      frozenset depends on string hashing, so rule generation takes it as
      an argument [iter_order].
    - The numeric thresholds ([min_support], [min_confidence]) and all the
      ratios computed from counts are rationals [Q]; the code's products
      and quotients are binary64 floats, and [is_frequent_float] below
      models the frequency test with that rounding.
    - Python exceptions are the [Err] branch of a small result monad.
    - [while True] loops are run on fuel; running out of fuel is [None]. *)

From Stdlib Require Import List Arith NArith Lia QArith Lqa Permutation Sorted.
From Stdlib Require Import PrimFloat SpecFloat FloatOps.
Import ListNotations.
Open Scope nat_scope.

Definition Item := nat.
Definition Itemset := list Item.
Definition Transaction := list Item.

(** ** Exceptions *)

Inductive exn := ZeroDivisionError | ValueError.

Inductive res (A : Type) :=
| Ok (a : A)
| Err (e : exn).
Arguments Ok {A} a.
Arguments Err {A} e.

Definition res_bind {A B} (m : res A) (f : A -> res B) : res B :=
  match m with Ok a => f a | Err e => Err e end.

Notation "x <- m ;; f" := (res_bind m (fun x => f))
  (at level 61, m at next level, right associativity).

(** Python's true division [a / b]: raises when [b == 0]. *)
Definition qdiv (a b : Q) : res Q :=
  if Qeq_bool b 0%Q then Err ZeroDivisionError else Ok (a / b)%Q.

Definition Qnat (n : nat) : Q := inject_Z (Z.of_nat n).

(** ** Sets as lists *)

Definition mem (x : Item) (s : list Item) : bool := existsb (Nat.eqb x) s.

(** [itemset.issubset(transaction)] *)
Definition issubset (s t : list Item) : bool := forallb (fun x => mem x t) s.

(** [itemset - antecedent] *)
Definition set_diff (s a : list Item) : list Item :=
  filter (fun x => negb (mem x a)) s.

(** [all_items.update(items)]: add the items not yet present. *)
Definition set_update (acc items : list Item) : list Item :=
  fold_left (fun s x => if mem x s then s else s ++ [x]) items acc.

(** [sorted(list(all_items))], as an insertion sort. *)
Fixpoint insert_item (x : Item) (l : list Item) : list Item :=
  match l with
  | [] => [x]
  | y :: ys => if x <=? y then x :: l else y :: insert_item x ys
  end.

Fixpoint sort_items (l : list Item) : list Item :=
  match l with
  | [] => []
  | x :: xs => insert_item x (sort_items xs)
  end.

(** [itertools.combinations(pool, r)]: the r-element sublists of [pool],
    in lexicographic order of positions. *)
Fixpoint combinations (pool : list Item) (r : nat) : list (list Item) :=
  match r with
  | O => [[]]
  | S r' =>
      match pool with
      | [] => []
      | x :: xs => map (cons x) (combinations xs r') ++ combinations xs r
      end
  end.

(** ** Support counting and the frequency test
    ([algorithms_brute_force.py], lines 26-41) *)

Fixpoint get_support_count (itemset : Itemset) (transactions : list Transaction)
  : nat :=
  match transactions with
  | [] => O
  | t :: ts =>
      if issubset itemset t then S (get_support_count itemset ts)
      else get_support_count itemset ts
  end.

Definition is_frequent (itemset : Itemset) (transactions : list Transaction)
  (min_support : Q) : bool :=
  let support_count := get_support_count itemset transactions in
  if Qlt_le_dec min_support 1%Q then
    Qle_bool (min_support * Qnat (length transactions))%Q (Qnat support_count)
  else
    Qle_bool min_support (Qnat support_count).

(** ** The frequency test in binary64, as Python evaluates it

    [is_frequent] above compares the count with the exact product
    [min_support * len(transactions)]; Python multiplies two floats and
    rounds the product, then compares the integer count with it exactly. *)

(** [float(n)] for an [int] [n]: rounded to nearest, ties to even. *)
Definition float_of_nat (n : nat) : float :=
  SF2Prim (binary_normalize 53 1024 (Z.of_nat n) 0 false).

(** The exact value [m * 2^e] of a finite float of sign [s]. *)
Definition finite_value (s : bool) (m : positive) (e : Z) : Q :=
  let v := (inject_Z (Zpos m) * Qpower (inject_Z 2) e)%Q in
  if s then (- v)%Q else v.

(** The value of a float, when it is finite. *)
Definition float_value (f : float) : option Q :=
  match Prim2SF f with
  | S754_zero _ => Some 0%Q
  | S754_finite s m e => Some (finite_value s m e)
  | _ => None
  end.

(** Python's [int >= float]: an exact comparison, false against [nan]. *)
Definition int_ge_float (c : nat) (f : float) : bool :=
  match Prim2SF f with
  | S754_zero _ => true
  | S754_infinity s => s
  | S754_nan => false
  | S754_finite s m e => Qle_bool (finite_value s m e) (Qnat c)
  end.

(** [is_frequent(itemset, transactions, min_support)] with [min_support] a
    float: [min_support < 1] and [min_support * len(transactions)] are
    float operations. *)
Definition is_frequent_float (itemset : Itemset) (transactions : list Transaction)
  (min_support : float) : bool :=
  let support_count := get_support_count itemset transactions in
  if PrimFloat.ltb min_support 1%float then
    int_ge_float support_count
      (PrimFloat.mul min_support (float_of_nat (length transactions)))
  else
    int_ge_float support_count min_support.

(** ** The frequent-itemset table: a dict [{k: [(itemset, count)]}]
    as an association list in insertion order. *)

Definition table := list (nat * list (Itemset * nat)).

(** [d[k] = v]: replace in place if present, append otherwise. *)
Fixpoint dict_set (k : nat) (v : list (Itemset * nat)) (d : table) : table :=
  match d with
  | [] => [(k, v)]
  | (k', v') :: d' =>
      if Nat.eqb k k' then (k, v) :: d' else (k', v') :: dict_set k v d'
  end.

Fixpoint dict_get (k : nat) (d : table) : option (list (Itemset * nat)) :=
  match d with
  | [] => None
  | (k', v) :: d' => if Nat.eqb k k' then Some v else dict_get k d'
  end.

Definition dict_keys (d : table) : list nat := map fst d.

(** ** [algorithms_brute_force.py]: loading and [brute_force_mining] *)

Module ABF.

(** [load_transactions]: the CSV rows, already split and stripped. *)
Definition load_transactions (rows : list (list Item))
  : list Transaction * list Item :=
  (rows, fold_left set_update rows []).

(** The inner [for itemset in all_k_itemsets] loop of one level. *)
Fixpoint frequent_k (transactions : list Transaction) (min_support : Q)
  (all_k_itemsets : list Itemset) : list (Itemset * nat) :=
  match all_k_itemsets with
  | [] => []
  | itemset :: rest =>
      if is_frequent itemset transactions min_support then
        (itemset, get_support_count itemset transactions)
          :: frequent_k transactions min_support rest
      else frequent_k transactions min_support rest
  end.

(** The [while True] loop, from level [k] with table [fi]. *)
Fixpoint mining_loop (fuel : nat) (transactions : list Transaction)
  (items_list : list Item) (min_support : Q) (k : nat) (fi : table)
  : option table :=
  match fuel with
  | O => None
  | S fuel' =>
      match frequent_k transactions min_support (combinations items_list k) with
      | [] => Some fi
      | fk =>
          mining_loop fuel' transactions items_list min_support (S k)
            (dict_set k fk fi)
      end
  end.

(** [brute_force_mining] (the returned elapsed time is not modelled); the
    loop is given [|items_list| + 1] rounds. *)
Definition brute_force_mining (transactions : list Transaction)
  (all_items : list Item) (min_support : Q) : option table :=
  let items_list := sort_items all_items in
  mining_loop (S (length items_list)) transactions items_list min_support 1 [].

End ABF.
(** ** Association rules *)

(** A rule dict; [rule_support_count] is the extra ['support_count'] key
    that only [BruteForceMiner] stores. *)
Record rule := mk_rule {
  antecedent : Itemset;
  consequent : Itemset;
  support : Q;
  confidence : Q;
  lift : Q;
  rule_support_count : option nat
}.

Definition Qltb (x y : Q) : bool := negb (Qle_bool y x).

(** Python's tuple order on the sort key [(confidence, support)]. *)
Definition key_lt (a b : rule) : bool :=
  Qltb (confidence a) (confidence b)
  || (Qeq_bool (confidence a) (confidence b) && Qltb (support a) (support b)).

(** [sorted(rules, key=..., reverse=True)]: a stable sort into descending
    key order, so rules with equal keys keep their original order. *)
Fixpoint insert_rule (r : rule) (l : list rule) : list rule :=
  match l with
  | [] => [r]
  | y :: ys => if key_lt y r then r :: l else y :: insert_rule r ys
  end.

Definition sort_rules (l : list rule) : list rule :=
  fold_left (fun acc r => insert_rule r acc) l [].

(** The nested loops shared by the three rule generators.  They differ in
    how [lift] is computed, in the extra ['support_count'] key, and in the
    guard for an empty table. *)
Section RuleGeneration.

(** [list(itemset)]: the iteration order of a frozenset. *)
Variable iter_order : Itemset -> list Item.
Variable transactions : list Transaction.
Variable num_transactions : nat.
Variable min_confidence : Q.
(** The lift from the confidence and the consequent. *)
Variable lift_of : Q -> Itemset -> res Q.
(** Whether the rule dict gets the ['support_count'] key. *)
Variable keep_count : bool.

(** [for i in range(1, len(items)): for antecedent_items in combinations(items, i)] *)
Definition antecedent_candidates (items : list Item) : list (list Item) :=
  flat_map (fun i => combinations items i) (seq 1 (length items - 1)).

Fixpoint rules_of_splits (itemset : Itemset) (support_count : nat)
  (ants : list (list Item)) (acc : list rule) : res (list rule) :=
  match ants with
  | [] => Ok acc
  | antecedent_items :: rest =>
      let antecedent := antecedent_items in
      let consequent := set_diff itemset antecedent in
      let antecedent_support_count := get_support_count antecedent transactions in
      if Nat.eqb antecedent_support_count 0 then
        rules_of_splits itemset support_count rest acc
      else
        let confidence := (Qnat support_count / Qnat antecedent_support_count)%Q in
        if Qle_bool min_confidence confidence then
          support <- qdiv (Qnat support_count) (Qnat num_transactions) ;;
          lift <- lift_of confidence consequent ;;
          rules_of_splits itemset support_count rest
            (acc ++ [mk_rule antecedent consequent support confidence lift
                       (if keep_count then Some support_count else None)])
        else rules_of_splits itemset support_count rest acc
  end.

(** [for itemset, support_count in frequent_itemsets[k]] *)
Fixpoint rules_of_level (recs : list (Itemset * nat)) (acc : list rule)
  : res (list rule) :=
  match recs with
  | [] => Ok acc
  | (itemset, support_count) :: rest =>
      acc' <- rules_of_splits itemset support_count
                (antecedent_candidates (iter_order itemset)) acc ;;
      rules_of_level rest acc'
  end.

(** [for k in range(2, max(keys) + 1): if k not in frequent_itemsets: continue] *)
Fixpoint rules_of_levels (ks : list nat) (fi : table) (acc : list rule)
  : res (list rule) :=
  match ks with
  | [] => Ok acc
  | k :: ks' =>
      match dict_get k fi with
      | None => rules_of_levels ks' fi acc
      | Some recs =>
          acc' <- rules_of_level recs acc ;;
          rules_of_levels ks' fi acc'
      end
  end.

(** [max(frequent_itemsets.keys())]: [ValueError] on an empty dict. *)
Definition max_key (fi : table) : res nat :=
  match dict_keys fi with
  | [] => Err ValueError
  | k :: ks => Ok (fold_left Nat.max ks k)
  end.

Definition unsorted_rules (fi : table) : res (list rule) :=
  m <- max_key fi ;;
  rules_of_levels (seq 2 (m - 1)) fi [].

End RuleGeneration.

(** [lift = confidence / consequent_support if consequent_support > 0 else 0] *)
Definition guarded_lift (transactions : list Transaction) (num_transactions : nat)
  (confidence : Q) (consequent : Itemset) : res Q :=
  consequent_support <-
    qdiv (Qnat (get_support_count consequent transactions)) (Qnat num_transactions) ;;
  Ok (if Qlt_le_dec 0 consequent_support then (confidence / consequent_support)%Q
      else 0%Q).

(** [lift = confidence / (self.get_support(consequent))] *)
Definition unguarded_lift (transactions : list Transaction) (num_transactions : nat)
  (confidence : Q) (consequent : Itemset) : res Q :=
  s <- qdiv (Qnat (get_support_count consequent transactions)) (Qnat num_transactions) ;;
  qdiv confidence s.

Module ABFRules.

(** [generate_association_rules(frequent_itemsets, transactions, min_confidence)] *)
Definition generate_association_rules (iter_order : Itemset -> list Item)
  (frequent_itemsets : table) (transactions : list Transaction)
  (min_confidence : Q) : res (list rule) :=
  let num_transactions := length transactions in
  rules <- unsorted_rules iter_order transactions num_transactions min_confidence
             (guarded_lift transactions num_transactions) false frequent_itemsets ;;
  Ok (sort_rules rules).

End ABFRules.

(** ** Displaying a level: [sorted(itemsets, key=lambda x: x[1], reverse=True)]
    and its first 10 entries *)

Fixpoint insert_count (p : Itemset * nat) (l : list (Itemset * nat))
  : list (Itemset * nat) :=
  match l with
  | [] => [p]
  | y :: ys => if snd y <? snd p then p :: l else y :: insert_count p ys
  end.

Definition sort_counts (l : list (Itemset * nat)) : list (Itemset * nat) :=
  fold_left (fun acc p => insert_count p acc) l [].

(** [sorted_itemsets[:10]]: the records printed for one level by
    [display_results], [find_frequent_itemsets] and
    [display_frequent_itemsets]. *)
Definition displayed_itemsets (itemsets : list (Itemset * nat)) : list (Itemset * nat) :=
  firstn 10 (sort_counts itemsets).

(** ** [src/src/brute_force_mining.py]: class [BruteForceMiner] *)

Module BFM.

Record miner := mk_miner {
  min_support : Q;
  min_confidence : Q;
  transactions : list Transaction;
  num_transactions : nat;
  all_items : list Item;
  frequent_itemsets : table;
  association_rules : list rule
}.

(** [BruteForceMiner(min_support, min_confidence)] *)
Definition init (ms mc : Q) : miner := mk_miner ms mc [] 0 [] [] [].

(** [load_transactions]: [self.transactions] is reset, [self.all_items]
    is only updated. *)
Definition load_transactions (rows : list (list Item)) (self : miner) : miner :=
  mk_miner (min_support self) (min_confidence self) rows (length rows)
    (fold_left set_update rows (all_items self))
    (frequent_itemsets self) (association_rules self).

Definition get_support_count' (self : miner) (itemset : Itemset) : nat :=
  get_support_count itemset (transactions self).

(** [get_support]: [self.get_support_count(itemset) / self.num_transactions]. *)
Definition get_support (self : miner) (itemset : Itemset) : res Q :=
  qdiv (Qnat (get_support_count' self itemset)) (Qnat (num_transactions self)).

Definition is_frequent' (self : miner) (itemset : Itemset) : bool :=
  let support_count := get_support_count' self itemset in
  if Qlt_le_dec (min_support self) 1%Q then
    Qle_bool (min_support self * Qnat (num_transactions self))%Q (Qnat support_count)
  else
    Qle_bool (min_support self) (Qnat support_count).

(** [is_frequent(itemset)] with [self.min_support] the float [min_support]. *)
Definition is_frequent_float (min_support : float) (self : miner) (itemset : Itemset)
  : bool :=
  let support_count := get_support_count' self itemset in
  if PrimFloat.ltb min_support 1%float then
    int_ge_float support_count
      (PrimFloat.mul min_support (float_of_nat (num_transactions self)))
  else
    int_ge_float support_count min_support.

Fixpoint frequent_k_itemsets (self : miner) (all_k_itemsets : list Itemset)
  : list (Itemset * nat) :=
  match all_k_itemsets with
  | [] => []
  | itemset :: rest =>
      if is_frequent' self itemset then
        (itemset, get_support_count' self itemset) :: frequent_k_itemsets self rest
      else frequent_k_itemsets self rest
  end.

Definition with_frequent_itemsets (self : miner) (fi : table) : miner :=
  mk_miner (min_support self) (min_confidence self) (transactions self)
    (num_transactions self) (all_items self) fi (association_rules self).

Definition with_association_rules (self : miner) (rs : list rule) : miner :=
  mk_miner (min_support self) (min_confidence self) (transactions self)
    (num_transactions self) (all_items self) (frequent_itemsets self) rs.

(** The display of the top 10 itemsets of a stored level:
    [support = count / self.num_transactions] for each one, the only step
    of the display that can raise. *)
Fixpoint display_supports (num_transactions : nat) (shown : list (Itemset * nat))
  : res unit :=
  match shown with
  | [] => Ok tt
  | (_, count) :: rest =>
      _ <- qdiv (Qnat count) (Qnat num_transactions) ;;
      display_supports num_transactions rest
  end.

(** The [while True] loop of [find_frequent_itemsets]: a non-empty level is
    stored, then displayed from a sorted copy; an exception of the display
    propagates (no caller catches it). *)
Fixpoint find_loop (fuel : nat) (self : miner) (items_list : list Item) (k : nat)
  : option (res miner) :=
  match fuel with
  | O => None
  | S fuel' =>
      match frequent_k_itemsets self (combinations items_list k) with
      | [] => Some (Ok self)
      | fk =>
          let self' := with_frequent_itemsets self (dict_set k fk (frequent_itemsets self)) in
          match display_supports (num_transactions self') (displayed_itemsets fk) with
          | Err e => Some (Err e)
          | Ok _ => find_loop fuel' self' items_list (S k)
          end
      end
  end.

Definition find_frequent_itemsets (self : miner) : option (res miner) :=
  let items_list := sort_items (all_items self) in
  find_loop (S (length items_list)) self items_list 1.

Definition generate_association_rules (iter_order : Itemset -> list Item)
  (self : miner) : res miner :=
  rules <- unsorted_rules iter_order (transactions self) (num_transactions self)
             (min_confidence self)
             (unguarded_lift (transactions self) (num_transactions self)) true
             (frequent_itemsets self) ;;
  Ok (with_association_rules self (sort_rules rules)).

End BFM.

(** ** [src/main.py]: class [InteractiveMiner], brute-force part *)

Module IM.

Record state := mk_state {
  transactions : list Transaction;
  num_transactions : nat;
  all_items : list Item
}.

Definition init : state := mk_state [] 0 [].

(** [load_transactions]: resets both [self.transactions] and [self.all_items]. *)
Definition load_transactions (rows : list (list Item)) (self : state) : state :=
  mk_state rows (length rows) (fold_left set_update rows []).

Definition get_support_count' (self : state) (itemset : Itemset) : nat :=
  get_support_count itemset (transactions self).

Definition is_frequent' (self : state) (itemset : Itemset) (min_support : Q) : bool :=
  let support_count := get_support_count' self itemset in
  if Qlt_le_dec min_support 1%Q then
    Qle_bool (min_support * Qnat (num_transactions self))%Q (Qnat support_count)
  else
    Qle_bool min_support (Qnat support_count).

(** [is_frequent(itemset, min_support)] with [min_support] a float. *)
Definition is_frequent_float (self : state) (itemset : Itemset) (min_support : float)
  : bool :=
  let support_count := get_support_count' self itemset in
  if PrimFloat.ltb min_support 1%float then
    int_ge_float support_count
      (PrimFloat.mul min_support (float_of_nat (num_transactions self)))
  else
    int_ge_float support_count min_support.

Fixpoint frequent_k (self : state) (min_support : Q) (all_k_itemsets : list Itemset)
  : list (Itemset * nat) :=
  match all_k_itemsets with
  | [] => []
  | itemset :: rest =>
      if is_frequent' self itemset min_support then
        (itemset, get_support_count' self itemset) :: frequent_k self min_support rest
      else frequent_k self min_support rest
  end.

Fixpoint mining_loop (fuel : nat) (self : state) (items_list : list Item)
  (min_support : Q) (k : nat) (frequent_itemsets : table) : option table :=
  match fuel with
  | O => None
  | S fuel' =>
      match frequent_k self min_support (combinations items_list k) with
      | [] => Some frequent_itemsets
      | fk =>
          mining_loop fuel' self items_list min_support (S k)
            (dict_set k fk frequent_itemsets)
      end
  end.

(** [generate_rules]: returns [[]] at once on an empty table. *)
Definition generate_rules (iter_order : Itemset -> list Item) (self : state)
  (frequent_itemsets : table) (min_confidence : Q) : res (list rule) :=
  match frequent_itemsets with
  | [] => Ok []
  | _ =>
      rules <- unsorted_rules iter_order (transactions self) (num_transactions self)
                 min_confidence
                 (guarded_lift (transactions self) (num_transactions self)) false
                 frequent_itemsets ;;
      Ok (sort_rules rules)
  end.

(** [run_brute_force(min_support, min_confidence)]: returns
    [(frequent_itemsets, rules)]. *)
Definition run_brute_force (iter_order : Itemset -> list Item) (self : state)
  (min_support min_confidence : Q) : option (res (table * list rule)) :=
  let items_list := sort_items (all_items self) in
  match mining_loop (S (length items_list)) self items_list min_support 1 [] with
  | None => None
  | Some frequent_itemsets =>
      Some (rules <- generate_rules iter_order self frequent_itemsets min_confidence ;;
            Ok (frequent_itemsets, rules))
  end.

End IM.

(** ** Binomial coefficients, for counting candidates *)

Fixpoint choose (n k : nat) : nat :=
  match k, n with
  | O, _ => 1
  | S _, O => 0
  | S k', S n' => choose n' k' + choose n' k
  end.

(** The frequent k-itemsets of level [k], in enumeration order. *)
Definition level (transactions : list Transaction) (min_support : Q)
  (items_list : list Item) (k : nat) : list (Itemset * nat) :=
  ABF.frequent_k transactions min_support (combinations items_list k).

(** The table after recording levels [1 .. n]. *)
Definition levels_table (transactions : list Transaction) (min_support : Q)
  (items_list : list Item) (n : nat) : table :=
  map (fun j => (j, level transactions min_support items_list j)) (seq 1 n).

(** A table whose levels are sorted by descending support count. *)
Definition counts_descending (l : list (Itemset * nat)) : Prop :=
  Sorted (fun a b => snd b <= snd a) l.

(** Order-preserving sublists. *)
Inductive subseq : list Item -> list Item -> Prop :=
| subseq_nil : forall l, subseq [] l
| subseq_take : forall x c l, subseq c l -> subseq (x :: c) (x :: l)
| subseq_skip : forall x c l, subseq c l -> subseq c (x :: l).

(** Lexicographic order on itemsets written as sorted lists. *)
Fixpoint lex_lt (a b : list Item) : Prop :=
  match a, b with
  | [], [] => False
  | [], _ :: _ => True
  | _ :: _, [] => False
  | x :: a', y :: b' => x < y \/ (x = y /\ lex_lt a' b')
  end.

(** The bounds on an emitted rule's confidence: at most 1, at least
    [min_confidence], and positive once one of the thresholds is. *)
Definition confidence_ok (ms mc : Q) (r : rule) : Prop :=
  (confidence r <= 1)%Q /\ (mc <= confidence r)%Q
  /\ ((0 < ms)%Q \/ (0 < mc)%Q -> (0 < confidence r)%Q).

(** [a] comes no later than [b] in descending key order. *)
Definition key_ge (a b : rule) : Prop := key_lt a b = false.

(** Equal sort keys [(confidence, support)]. *)
Definition key_eqb (a b : rule) : bool :=
  Qeq_bool (confidence a) (confidence b) && Qeq_bool (support a) (support b).

(** [rules] is [gen] sorted as [sorted(gen, key=..., reverse=True)] sorts
    it: descending keys, same rules, and equal-key rules in [gen]'s order. *)
Definition ordered_from (gen rules : list rule) : Prop :=
  Sorted key_ge rules /\ Permutation gen rules
  /\ forall v, filter (key_eqb v) rules = filter (key_eqb v) gen.

(** A record of the table as the miner writes it. *)
Definition good_record (ts : list Transaction) (ms : Q) (p : Itemset * nat) : Prop :=
  snd p = get_support_count (fst p) ts /\ is_frequent (fst p) ts ms = true.

(** ** Parsing the [Items] cell of a CSV row
    ([[item.strip() for item in row['Items'].split(',')]]) *)

(** A Python [str] as its list of code points. *)
Definition ustring := list N.

(** The code points for which [str.isspace] holds, which [str.strip()]
    removes. *)
Definition is_space (c : N) : bool :=
  existsb (N.eqb c)
    [9; 10; 11; 12; 13; 28; 29; 30; 31; 32; 133; 160; 5760;
     8192; 8193; 8194; 8195; 8196; 8197; 8198; 8199; 8200; 8201; 8202;
     8232; 8233; 8239; 8287; 12288]%N.

Definition comma : N := 44%N.

Fixpoint lstrip (s : ustring) : ustring :=
  match s with
  | [] => []
  | c :: s' => if is_space c then lstrip s' else s
  end.

(** [s.strip()] *)
Definition strip (s : ustring) : ustring := rev (lstrip (rev (lstrip s))).

(** [s.split(sep)]: every occurrence of [sep] splits, empty pieces kept. *)
Fixpoint split_on (sep : N) (s : ustring) : list ustring :=
  match s with
  | [] => [[]]
  | c :: s' =>
      if N.eqb c sep then [] :: split_on sep s'
      else match split_on sep s' with
           | [] => [[c]]
           | w :: ws => (c :: w) :: ws
           end
  end.

Definition parse_items (cell : ustring) : list ustring :=
  map strip (split_on comma cell).

(** [sep.join(words)] *)
Fixpoint join (sep : ustring) (words : list ustring) : ustring :=
  match words with
  | [] => []
  | [w] => w
  | w :: ws => w ++ sep ++ join sep ws
  end.

(** ** [InteractiveMiner.get_parameters] *)

(** What one [input()] gives after [float()]: an empty line, a number, or
    a text [float] rejects with [ValueError]. *)
Inductive answer := Blank | Number (q : Q) | NotANumber.

(** One [while True] prompt loop: an empty line takes the default, the
    value is kept once [accept] holds; running out of input is [None]
    ([input()] raises [EOFError]).  Returns the value and the answers left. *)
Fixpoint ask (accept : Q -> bool) (default : Q) (answers : list answer)
  : option (Q * list answer) :=
  match answers with
  | [] => None
  | a :: rest =>
      match a with
      | Blank => if accept default then Some (default, rest) else ask accept default rest
      | Number q => if accept q then Some (q, rest) else ask accept default rest
      | NotANumber => ask accept default rest
      end
  end.

(** [0 <= min_support <= 1 or min_support >= 1] *)
Definition accept_support (q : Q) : bool :=
  (Qle_bool 0 q && Qle_bool q 1) || Qle_bool 1 q.

(** [0 <= min_confidence <= 1] *)
Definition accept_confidence (q : Q) : bool := Qle_bool 0 q && Qle_bool q 1.

Definition get_parameters (answers : list answer) : option (Q * Q) :=
  match ask accept_support (1#5) answers with
  | None => None
  | Some (min_support, rest) =>
      match ask accept_confidence (3#5) rest with
      | None => None
      | Some (min_confidence, _) => Some (min_support, min_confidence)
      end
  end.

(** ** Comparing rule lists *)

(** A rule dict without the ['support_count'] key of [BruteForceMiner]. *)
Definition drop_support_count (r : rule) : rule :=
  mk_rule (antecedent r) (consequent r) (support r) (confidence r) (lift r) None.

(** [r] is the rule the inner loop appends for the record [(itemset, sc)]
    and the antecedent [a]. *)
Definition emitted_rule (ts : list Transaction) (n : nat) (mc : Q)
  (lift_of : Q -> Itemset -> res Q) (keep_count : bool)
  (itemset : Itemset) (sc : nat) (a : list Item) (r : rule) : Prop :=
  get_support_count a ts <> 0
  /\ r = mk_rule a (set_diff itemset a) (Qnat sc / Qnat n)%Q
          (Qnat sc / Qnat (get_support_count a ts))%Q (lift r)
          (if keep_count then Some sc else None)
  /\ Qle_bool mc (confidence r) = true
  /\ Qeq_bool (Qnat n) 0 = false
  /\ lift_of (confidence r) (consequent r) = Ok (lift r).

(** ** The claims as stated *)

(** C1 (as stated): the mined table records, under each key [k], the
    frequent k-itemsets sorted by descending support count. *)
Definition C1_sorted_levels (ts : list Transaction) (all_items : list Item) (ms : Q)
  : Prop :=
  forall tbl k recs, ABF.brute_force_mining ts all_items ms = Some tbl ->
  In (k, recs) tbl -> counts_descending recs.

(** C5 (as stated): mining with [min_support = 1.0] records only itemsets
    whose support count is [numTransactions]. *)
Definition C5_only_full_support (ts : list Transaction) (all_items : list Item) : Prop :=
  forall tbl k recs s c, ABF.brute_force_mining ts all_items 1%Q = Some tbl ->
  In (k, recs) tbl -> In (s, c) recs -> c = length ts.

(** C7 (as stated): every rule derived from the mined table has
    [0 < confidence <= 1] and [min_confidence <= confidence]. *)
Definition C7_confidence_bounds (rows : list (list Item)) (ms mc : Q)
  (iter_order : Itemset -> list Item) : Prop :=
  forall tbl rules,
    ABF.brute_force_mining rows (snd (ABF.load_transactions rows)) ms = Some tbl ->
    ABFRules.generate_association_rules iter_order tbl rows mc = Ok rules ->
    forall r, In r rules ->
      (0 < confidence r)%Q /\ (confidence r <= 1)%Q /\ (mc <= confidence r)%Q.

(** C8 (as stated): for the same table, transactions and [min_confidence],
    any two runs give the same ordered list, whatever order [list(itemset)]
    walks a frozenset in. *)
Definition C8_deterministic (tbl : table) (ts : list Transaction) (mc : Q) : Prop :=
  forall io1 io2 rules1 rules2,
    (forall s, Permutation (io1 s) s) -> (forall s, Permutation (io2 s) s) ->
    ABFRules.generate_association_rules io1 tbl ts mc = Ok rules1 ->
    ABFRules.generate_association_rules io2 tbl ts mc = Ok rules2 ->
    rules1 = rules2.

(** ** General facts *)

Lemma Qnat_le (a b : nat) : (Qnat a <= Qnat b)%Q <-> a <= b.
Proof. unfold Qnat. rewrite <- Zle_Qle. lia. Qed.

Lemma Qnat_lt (a b : nat) : (Qnat a < Qnat b)%Q <-> a < b.
Proof. unfold Qnat. rewrite <- Zlt_Qlt. lia. Qed.

Lemma Qnat_eq0 (a : nat) : Qeq_bool (Qnat a) 0 = true <-> a = 0.
Proof.
  rewrite Qeq_bool_iff. unfold Qnat, Qeq. simpl. lia.
Qed.

Lemma get_support_count_le (s : Itemset) (ts : list Transaction) :
  get_support_count s ts <= length ts.
Proof. induction ts as [|t ts IH]; simpl; [lia|]. destruct (issubset s t); lia. Qed.

Lemma issubset_incl (a s t : list Item) :
  incl a s -> issubset s t = true -> issubset a t = true.
Proof.
  unfold issubset. rewrite !forallb_forall. intros Hincl H x Hx. apply H, Hincl, Hx.
Qed.

(** Anti-monotonicity of the support count. *)
Lemma get_support_count_antimono (a s : list Item) (ts : list Transaction) :
  incl a s -> get_support_count s ts <= get_support_count a ts.
Proof.
  intros Hincl. induction ts as [|t ts IH]; simpl; [lia|].
  destruct (issubset s t) eqn:E.
  - rewrite (issubset_incl a s t Hincl E). lia.
  - destruct (issubset a t); lia.
Qed.

Lemma combinations_too_long (l : list Item) (k : nat) :
  length l < k -> combinations l k = [].
Proof.
  revert k. induction l as [|x xs IH]; intros k Hk; destruct k as [|k]; simpl in *;
    try lia; auto.
  rewrite (IH k) by lia. rewrite (IH (S k)) by lia. reflexivity.
Qed.

Lemma combinations_incl (l : list Item) (k : nat) (c : list Item) :
  In c (combinations l k) -> incl c l.
Proof.
  revert k c. induction l as [|x xs IH]; intros k c Hc; destruct k as [|k]; simpl in Hc.
  - destruct Hc as [<-|[]]. intros y [].
  - destruct Hc.
  - destruct Hc as [<-|[]]. intros y [].
  - apply in_app_or in Hc. destruct Hc as [Hc|Hc].
    + apply in_map_iff in Hc. destruct Hc as [c' [<- Hc']].
      intros y [<-|Hy]; [left; reflexivity|right; eapply IH; eauto].
    + intros y Hy. right. eapply IH; eauto.
Qed.

Lemma insert_item_perm (x : Item) (l : list Item) : Permutation (insert_item x l) (x :: l).
Proof.
  induction l as [|y ys IH]; simpl; [auto|].
  destruct (x <=? y); [auto|].
  eapply perm_trans; [apply perm_skip, IH|apply perm_swap].
Qed.

Lemma sort_items_perm (l : list Item) : Permutation (sort_items l) l.
Proof.
  induction l as [|x xs IH]; simpl; [auto|].
  eapply perm_trans; [apply insert_item_perm|auto].
Qed.

Lemma sort_items_length (l : list Item) : length (sort_items l) = length l.
Proof. apply Permutation_length, sort_items_perm. Qed.

Lemma dict_set_fresh (k : nat) (v : list (Itemset * nat)) (d : table) :
  ~ In k (dict_keys d) -> dict_set k v d = d ++ [(k, v)].
Proof.
  induction d as [|[k' v'] d IH]; simpl; intros H; [reflexivity|].
  destruct (Nat.eqb_spec k k'); [exfalso; auto|].
  rewrite IH; auto.
Qed.

(** ** One level of the mining loop, and the loop *)

Section Mining.

Variable transactions : list Transaction.
Variable min_support : Q.
Variable items_list : list Item.

Lemma frequent_k_filter (l : list Itemset) :
  ABF.frequent_k transactions min_support l
  = map (fun s => (s, get_support_count s transactions))
      (filter (fun s => is_frequent s transactions min_support) l).
Proof.
  induction l as [|s l IH]; simpl; [reflexivity|].
  destruct (is_frequent s transactions min_support); simpl; congruence.
Qed.

Lemma In_frequent_k (l : list Itemset) (s : Itemset) (c : nat) :
  In (s, c) (ABF.frequent_k transactions min_support l) ->
  In s l /\ c = get_support_count s transactions
  /\ is_frequent s transactions min_support = true.
Proof.
  rewrite frequent_k_filter, in_map_iff. intros [s' [E Hs]]. injection E as <- <-.
  apply filter_In in Hs. tauto.
Qed.

Local Abbreviation level := (level transactions min_support items_list).
Local Abbreviation levels_table := (levels_table transactions min_support items_list).

Lemma levels_table_keys (n : nat) : dict_keys (levels_table n) = seq 1 n.
Proof. unfold dict_keys, levels_table. rewrite map_map. apply map_id. Qed.

Lemma levels_table_S (k : nat) :
  dict_set (S k) (level (S k)) (levels_table k) = levels_table (S k).
Proof.
  rewrite dict_set_fresh.
  - unfold levels_table. rewrite seq_S, map_app. reflexivity.
  - rewrite levels_table_keys, in_seq. lia.
Qed.

Lemma mining_loop_shape (fuel k : nat) (tbl : table) :
  (forall j, 1 <= j < S k -> level j <> []) ->
  ABF.mining_loop fuel transactions items_list min_support (S k) (levels_table k)
    = Some tbl ->
  exists K, S k <= K /\ level K = []
    /\ (forall j, 1 <= j < K -> level j <> [])
    /\ tbl = levels_table (K - 1).
Proof.
  revert k. induction fuel as [|fuel IH]; intros k Hne H; simpl in H; [discriminate|].
  change (ABF.frequent_k transactions min_support (combinations items_list (S k)))
    with (level (S k)) in H.
  destruct (level (S k)) as [|p l] eqn:E.
  - injection H as <-. exists (S k). repeat split; auto.
    replace (S k - 1) with k by lia. reflexivity.
  - rewrite <- E, levels_table_S in H.
    destruct (IH (S k)) as [K [HK1 [HK2 [HK3 HK4]]]]; auto.
    + intros j Hj. destruct (Nat.eq_dec j (S k)) as [->|]; [congruence|].
      apply Hne. lia.
    + exists K. repeat split; auto. lia.
Qed.

Lemma mining_loop_some (fuel k : nat) (fi : table) :
  k <= S (length items_list) -> S (length items_list) < k + fuel ->
  ABF.mining_loop fuel transactions items_list min_support k fi <> None.
Proof.
  revert k fi. induction fuel as [|fuel IH]; intros k fi H1 H2; [lia|].
  simpl. destruct (ABF.frequent_k transactions min_support (combinations items_list k))
    as [|p l] eqn:E; [discriminate|].
  apply IH; [|lia].
  destruct (Nat.le_gt_cases k (length items_list)); [lia|].
  rewrite combinations_too_long in E by lia. discriminate.
Qed.

Lemma mining_loop_more_fuel (fuel k : nat) (fi tbl : table) :
  ABF.mining_loop fuel transactions items_list min_support k fi = Some tbl ->
  ABF.mining_loop (S fuel) transactions items_list min_support k fi = Some tbl.
Proof.
  revert k fi. induction fuel as [|fuel IH]; intros k fi H; [discriminate|].
  change (ABF.mining_loop (S (S fuel)) transactions items_list min_support k fi)
    with (match ABF.frequent_k transactions min_support (combinations items_list k) with
          | [] => Some fi
          | fk => ABF.mining_loop (S fuel) transactions items_list min_support (S k)
                    (dict_set k fk fi)
          end).
  simpl in H.
  destruct (ABF.frequent_k transactions min_support (combinations items_list k)).
  - exact H.
  - apply IH. exact H.
Qed.

End Mining.

(** The two branches of the [min_support < 1] test. *)
Lemma threshold_branches (ms n c : Q) :
  ((ms < 1)%Q ->
     ((if Qlt_le_dec ms 1%Q then Qle_bool (ms * n) c else Qle_bool ms c) = true
      <-> (ms * n <= c)%Q))
  /\ ((1 <= ms)%Q ->
     ((if Qlt_le_dec ms 1%Q then Qle_bool (ms * n) c else Qle_bool ms c) = true
      <-> (ms <= c)%Q)).
Proof.
  split; intros H; destruct (Qlt_le_dec ms 1) as [Hl|Hl]; rewrite Qle_bool_iff;
    try reflexivity; exfalso;
    first [apply (Qlt_not_le _ _ Hl); assumption | apply (Qlt_not_le _ _ H); assumption].
Qed.

(** The shape of a mined table: the levels [1 .. K-1] in order, each
    non-empty, the level [K] empty. *)
Lemma brute_force_mining_shape (ts : list Transaction) (all_items : list Item) (ms : Q) :
  exists tbl K,
    ABF.brute_force_mining ts all_items ms = Some tbl /\ 1 <= K
    /\ level ts ms (sort_items all_items) K = []
    /\ (forall j, 1 <= j < K -> level ts ms (sort_items all_items) j <> [])
    /\ tbl = levels_table ts ms (sort_items all_items) (K - 1).
Proof.
  unfold ABF.brute_force_mining.
  destruct (ABF.mining_loop (S (length (sort_items all_items))) ts (sort_items all_items)
              ms 1 []) as [tbl|] eqn:E.
  - destruct (mining_loop_shape ts ms (sort_items all_items) (S (length (sort_items all_items))) 0 tbl) as [K HK].
    + intros j Hj. lia.
    + exact E.
    + exists tbl, K. tauto.
  - exfalso. revert E. apply mining_loop_some; lia.
Qed.

Lemma brute_force_mining_records (ts : list Transaction) (all_items : list Item) (ms : Q)
  (tbl : table) (k : nat) (recs : list (Itemset * nat)) (s : Itemset) (c : nat) :
  ABF.brute_force_mining ts all_items ms = Some tbl ->
  In (k, recs) tbl -> In (s, c) recs ->
  In s (combinations (sort_items all_items) k)
  /\ c = get_support_count s ts /\ is_frequent s ts ms = true.
Proof.
  intros Hm Hk Hs.
  destruct (brute_force_mining_shape ts all_items ms) as [tbl' [K [E [_ [_ [_ ->]]]]]].
  rewrite Hm in E. injection E as ->.
  unfold levels_table in Hk. apply in_map_iff in Hk. destruct Hk as [j [Ej _]].
  injection Ej as Ek Er. subst k recs. unfold level in Hs.
  apply In_frequent_k in Hs. exact Hs.
Qed.

(** ** The three mining loops compute the same table *)

Lemma bfm_frequent_k (m : BFM.miner) (l : list Itemset) :
  BFM.num_transactions m = length (BFM.transactions m) ->
  BFM.frequent_k_itemsets m l = ABF.frequent_k (BFM.transactions m) (BFM.min_support m) l.
Proof.
  intros Hn. induction l as [|s l IH]; simpl; [reflexivity|].
  unfold BFM.is_frequent', BFM.get_support_count', is_frequent. rewrite Hn, IH.
  reflexivity.
Qed.

Lemma display_supports_ok (n : nat) (l : list (Itemset * nat)) :
  0 < n -> BFM.display_supports n l = Ok tt.
Proof.
  intros Hn. induction l as [|[s c] l IH]; [reflexivity|].
  cbn [BFM.display_supports]. unfold qdiv.
  destruct (Qeq_bool (Qnat n) 0) eqn:E; [apply Qnat_eq0 in E; lia|exact IH].
Qed.

Lemma display_supports_zero (p : Itemset * nat) (l : list (Itemset * nat)) :
  BFM.display_supports 0 (displayed_itemsets (p :: l)) = Err ZeroDivisionError.
Proof.
  assert (H : forall l acc, acc <> [] ->
                fold_left (fun acc p => insert_count p acc) l acc <> []).
  { induction l0 as [|q l0 IH]; intros acc Hacc; simpl; [exact Hacc|].
    apply IH. destruct acc as [|y ys]; simpl; [discriminate|].
    destruct (snd y <? snd q); discriminate. }
  unfold displayed_itemsets.
  destruct (sort_counts (p :: l)) as [|[s c] l'] eqn:E.
  - exfalso. apply (H l [p]); [discriminate|exact E].
  - reflexivity.
Qed.

Lemma bfm_find_loop (fuel : nat) (m : BFM.miner) (il : list Item) (k : nat) :
  BFM.num_transactions m = length (BFM.transactions m) ->
  0 < BFM.num_transactions m \/ (il = [] /\ 1 <= k) ->
  BFM.find_loop fuel m il k
  = option_map (fun fi => Ok (BFM.with_frequent_itemsets m fi))
      (ABF.mining_loop fuel (BFM.transactions m) il (BFM.min_support m) k
         (BFM.frequent_itemsets m)).
Proof.
  revert m k. induction fuel as [|fuel IH]; intros m k Hn Hpos; [reflexivity|].
  cbn [BFM.find_loop ABF.mining_loop].
  rewrite bfm_frequent_k by exact Hn.
  destruct (ABF.frequent_k (BFM.transactions m) (BFM.min_support m) (combinations il k))
    as [|p l] eqn:Efk.
  - destruct m; reflexivity.
  - destruct Hpos as [Hpos|[-> Hk]].
    + cbn [BFM.num_transactions BFM.with_frequent_itemsets].
      rewrite display_supports_ok by exact Hpos.
      rewrite IH by (cbn [BFM.num_transactions BFM.transactions BFM.with_frequent_itemsets];
                     first [exact Hn|left; exact Hpos]).
      cbn [BFM.with_frequent_itemsets BFM.transactions BFM.min_support
           BFM.frequent_itemsets].
      destruct (ABF.mining_loop fuel (BFM.transactions m) il (BFM.min_support m) (S k)
                  (dict_set k (p :: l) (BFM.frequent_itemsets m))); reflexivity.
    + destruct k as [|k]; [lia|]. simpl in Efk. discriminate.
Qed.

(** A fresh [BruteForceMiner] after [load_transactions] meets the side
    condition of [bfm_find_loop]: it has rows, or no items at all. *)
Lemma bfm_fresh_find_ok (rows : list (list Item)) (ms mc : Q) :
  0 < BFM.num_transactions (BFM.load_transactions rows (BFM.init ms mc))
  \/ (sort_items (BFM.all_items (BFM.load_transactions rows (BFM.init ms mc))) = []
      /\ 1 <= 1).
Proof. destruct rows; [right; split; reflexivity|left; simpl; lia]. Qed.

Lemma im_frequent_k (self : IM.state) (ms : Q) (l : list Itemset) :
  IM.num_transactions self = length (IM.transactions self) ->
  IM.frequent_k self ms l = ABF.frequent_k (IM.transactions self) ms l.
Proof.
  intros Hn. induction l as [|s l IH]; simpl; [reflexivity|].
  unfold IM.is_frequent', IM.get_support_count', is_frequent. rewrite Hn, IH.
  reflexivity.
Qed.

Lemma im_mining_loop (fuel : nat) (self : IM.state) (il : list Item) (ms : Q) (k : nat)
  (fi : table) :
  IM.num_transactions self = length (IM.transactions self) ->
  IM.mining_loop fuel self il ms k fi = ABF.mining_loop fuel (IM.transactions self) il ms k fi.
Proof.
  intros Hn. revert k fi. induction fuel as [|fuel IH]; intros k fi; simpl; [reflexivity|].
  rewrite im_frequent_k by exact Hn.
  destruct (ABF.frequent_k (IM.transactions self) ms (combinations il k)); auto.
Qed.

Lemma mining_loop_enough_fuel (ts : list Transaction) (il : list Item) (ms : Q)
  (fuel : nat) (tbl : table) :
  ABF.mining_loop (S (length il)) ts il ms 1 [] = Some tbl ->
  S (length il) <= fuel -> ABF.mining_loop fuel ts il ms 1 [] = Some tbl.
Proof.
  intros H Hf. induction Hf as [|fuel Hf IH]; [exact H|].
  apply mining_loop_more_fuel, IH.
Qed.

(** ** Rule generation raises nothing when the lift cannot fail *)

Section NoError.

Variable iter_order : Itemset -> list Item.
Variable ts : list Transaction.
Variable mc : Q.
Variable lift_of : Q -> Itemset -> res Q.
Variable keep_count : bool.
Hypothesis lift_total : forall c s, exists q, lift_of c s = Ok q.





End NoError.


Lemma get_support_count_full (s : Itemset) (ts : list Transaction) :
  get_support_count s ts = length ts -> forall t, In t ts -> issubset s t = true.
Proof.
  induction ts as [|t' ts IH]; simpl; intros H t Ht; [destruct Ht|].
  pose proof (get_support_count_le s ts).
  destruct (issubset s t') eqn:E; [|lia].
  destruct Ht as [<-|Ht]; [exact E|]. apply IH; [lia|exact Ht].
Qed.

(** ** Candidate enumeration *)

Lemma mem_In (x : Item) (s : list Item) : mem x s = true <-> In x s.
Proof.
  unfold mem. rewrite existsb_exists. split.
  - intros [y [Hy E]]. apply Nat.eqb_eq in E. subst. exact Hy.
  - intros Hx. exists x. split; [exact Hx|apply Nat.eqb_refl].
Qed.

Lemma combinations_length (l : list Item) (k : nat) :
  length (combinations l k) = choose (length l) k.
Proof.
  revert k. induction l as [|x xs IH]; intros k; destruct k as [|k]; simpl; auto.
  rewrite length_app, length_map, !IH. reflexivity.
Qed.

Lemma subseq_incl (c l : list Item) : subseq c l -> incl c l.
Proof.
  induction 1 as [l|x c l _ IH|x c l _ IH]; intros y Hy.
  - destruct Hy.
  - destruct Hy as [<-|Hy]; [left; reflexivity|right; apply IH, Hy].
  - right. apply IH, Hy.
Qed.

Lemma subseq_length (c l : list Item) : subseq c l -> length c <= length l.
Proof. induction 1; simpl; lia. Qed.

Lemma In_combinations (l : list Item) (k : nat) (c : list Item) :
  In c (combinations l k) <-> subseq c l /\ length c = k.
Proof.
  revert k c. induction l as [|x xs IH]; intros k c; destruct k as [|k]; simpl.
  - split; [intros [<-|[]]; split; [constructor|reflexivity]|].
    intros [_ Hc]. left. destruct c; [reflexivity|discriminate].
  - split; [intros []|]. intros [Hs Hc]. inversion Hs; subst; discriminate.
  - split; [intros [<-|[]]; split; [constructor|reflexivity]|].
    intros [_ Hc]. left. destruct c; [reflexivity|discriminate].
  - rewrite in_app_iff, in_map_iff. split.
    + intros [[c' [<- Hc']]|Hc].
      * apply IH in Hc'. destruct Hc'. split; [constructor; auto|simpl; lia].
      * apply IH in Hc. destruct Hc. split; [apply subseq_skip; auto|auto].
    + intros [Hs Hc]. inversion Hs as [|y c' l' Hs'|y c' l' Hs']; subst.
      * discriminate.
      * left. exists c'. split; [reflexivity|]. apply IH. simpl in Hc. split; auto.
      * right. apply IH. split; auto.
Qed.

Lemma NoDup_map_cons (x : Item) (A : list (list Item)) :
  NoDup A -> NoDup (map (cons x) A).
Proof.
  induction 1 as [|a A Ha HA IH]; simpl; constructor; auto.
  rewrite in_map_iff. intros [a' [E Ha']]. injection E as ->. contradiction.
Qed.

Lemma combinations_NoDup (l : list Item) (k : nat) :
  NoDup l -> NoDup (combinations l k).
Proof.
  revert k. induction l as [|x xs IH]; intros k Hl; destruct k as [|k]; simpl.
  - repeat constructor. intros [].
  - constructor.
  - repeat constructor. intros [].
  - inversion Hl as [|? ? Hx Hxs]; subst.
    apply NoDup_app.
    + apply NoDup_map_cons, IH, Hxs.
    + apply IH, Hxs.
    + intros a Ha Ha'. apply in_map_iff in Ha. destruct Ha as [a0 [<- _]].
      apply combinations_incl in Ha'. apply Hx, Ha'. left. reflexivity.
Qed.

Lemma subseq_NoDup (c l : list Item) : subseq c l -> NoDup l -> NoDup c.
Proof.
  induction 1 as [l|x c l Hs IH|x c l Hs IH]; intros Hl.
  - constructor.
  - inversion Hl; subst. constructor; auto.
    intros Hx. apply (subseq_incl _ _ Hs) in Hx. contradiction.
  - inversion Hl; subst. auto.
Qed.

Lemma subseq_filter (f : Item -> bool) (l : list Item) : subseq (filter f l) l.
Proof.
  induction l as [|x l IH]; simpl; [constructor|].
  destruct (f x); constructor; exact IH.
Qed.

Lemma subseq_cons_inv (x : Item) (xs c : list Item) :
  ~ In x xs -> subseq c (x :: xs) ->
  (In x c -> exists c1, c = x :: c1 /\ subseq c1 xs) /\ (~ In x c -> subseq c xs).
Proof.
  intros Hx Hc. inversion Hc as [l|y c1 l Hs|y c1 l Hs]; subst.
  - split; [intros []|intros _; constructor].
  - split; [intros _; exists c1; auto|intros H; exfalso; apply H; left; reflexivity].
  - split; [|auto]. intros H. exfalso. apply Hx, (subseq_incl _ _ Hs), H.
Qed.

(** In a list without duplicates, a sublist is fixed by its elements. *)
Lemma subseq_same_elements (l c c' : list Item) :
  NoDup l -> subseq c l -> subseq c' l -> (forall y, In y c <-> In y c') -> c = c'.
Proof.
  revert c c'. induction l as [|x xs IH]; intros c c' Hl Hc Hc' Hy.
  - inversion Hc; inversion Hc'; subst; reflexivity.
  - inversion Hl as [|? ? Hx Hxs]; subst.
    destruct (subseq_cons_inv x xs c Hx Hc) as [Hin Hout].
    destruct (subseq_cons_inv x xs c' Hx Hc') as [Hin' Hout'].
    destruct (in_dec Nat.eq_dec x c) as [Hxc|Hxc].
    + destruct (Hin Hxc) as [c1 [-> Hc1]].
      destruct (Hin' (proj1 (Hy x) Hxc)) as [c1' [-> Hc1']].
      f_equal. apply IH; auto. intros y. split; intros Hy1.
      * assert (y <> x) by (intros ->; apply Hx, (subseq_incl _ _ Hc1), Hy1).
        destruct (proj1 (Hy y) (or_intror Hy1)); [congruence|assumption].
      * assert (y <> x) by (intros ->; apply Hx, (subseq_incl _ _ Hc1'), Hy1).
        destruct (proj2 (Hy y) (or_intror Hy1)); [congruence|assumption].
    + apply IH; auto. apply Hout'. intros H. apply Hxc, Hy, H.
Qed.

Lemma subseq_sorted (c l : list Item) :
  subseq c l -> StronglySorted lt l -> StronglySorted lt c.
Proof.
  induction 1 as [l|x c l Hs IH|x c l Hs IH]; intros Hl.
  - constructor.
  - inversion Hl as [|? ? Hl' Hf]; subst. constructor; auto.
    rewrite Forall_forall in *. intros y Hy. apply Hf, (subseq_incl _ _ Hs), Hy.
  - inversion Hl; subst. auto.
Qed.

Lemma StronglySorted_app {A} (R : A -> A -> Prop) (l1 l2 : list A) :
  StronglySorted R l1 -> StronglySorted R l2 ->
  (forall a b, In a l1 -> In b l2 -> R a b) -> StronglySorted R (l1 ++ l2).
Proof.
  induction 1 as [|a l1 H1 IH Hf]; intros H2 H; simpl; [exact H2|].
  constructor.
  - apply IH; [exact H2|]. intros x y Hx Hy. apply H; [right|]; assumption.
  - apply Forall_app. split; [exact Hf|].
    apply Forall_forall. intros y Hy. apply H; [left; reflexivity|exact Hy].
Qed.

Lemma StronglySorted_map_cons (x : Item) (A : list (list Item)) :
  StronglySorted lex_lt A -> StronglySorted lex_lt (map (cons x) A).
Proof.
  induction 1 as [|a A HA IH Hf]; simpl; constructor; auto.
  rewrite Forall_forall in *. intros b Hb. apply in_map_iff in Hb.
  destruct Hb as [b' [<- Hb']]. simpl. right. split; [reflexivity|]. apply Hf, Hb'.
Qed.

(** On a strictly increasing pool, the candidates come in lexicographic order. *)
Lemma combinations_lex_sorted (l : list Item) (k : nat) :
  StronglySorted lt l -> StronglySorted lex_lt (combinations l k).
Proof.
  revert k. induction l as [|x xs IH]; intros k Hl; destruct k as [|k]; simpl.
  - repeat constructor.
  - constructor.
  - repeat constructor.
  - inversion Hl as [|? ? Hxs Hf]; subst.
    apply StronglySorted_app.
    + apply StronglySorted_map_cons, IH, Hxs.
    + apply IH, Hxs.
    + intros a b Ha Hb. apply in_map_iff in Ha. destruct Ha as [a' [<- _]].
      apply In_combinations in Hb. destruct Hb as [Hsb Hlb].
      destruct b as [|y b]; [discriminate|].
      simpl. left. rewrite Forall_forall in Hf. apply Hf.
      apply (subseq_incl _ _ Hsb). left. reflexivity.
Qed.

Lemma insert_item_sorted (x : Item) (l : list Item) :
  StronglySorted lt l -> ~ In x l -> StronglySorted lt (insert_item x l).
Proof.
  induction l as [|y ys IH]; intros Hl Hx; simpl.
  - repeat constructor.
  - inversion Hl as [|? ? Hys Hf]; subst.
    destruct (Nat.leb_spec x y) as [Hxy|Hxy].
    + assert (x < y) by (destruct (Nat.eq_dec x y); [subst; exfalso; apply Hx; left; auto|lia]).
      constructor; [exact Hl|]. constructor; [assumption|].
      rewrite Forall_forall in *. intros z Hz. specialize (Hf z Hz). lia.
    + constructor.
      * apply IH; [exact Hys|]. intros H. apply Hx. right. exact H.
      * rewrite Forall_forall in *. intros z Hz.
        apply (Permutation_in _ (insert_item_perm x ys)) in Hz.
        destruct Hz as [<-|Hz]; [lia|apply Hf, Hz].
Qed.

Lemma sort_items_sorted (l : list Item) : NoDup l -> StronglySorted lt (sort_items l).
Proof.
  induction 1 as [|x l Hx Hl IH]; simpl; [constructor|].
  apply insert_item_sorted; [exact IH|].
  intros H. apply Hx. apply (Permutation_in _ (sort_items_perm l)), H.
Qed.
(** ** Bounds on the confidence of generated rules *)

Lemma confidence_in_bounds (ts : list Transaction) (ms mc : Q) (itemset a : list Item) :
  incl a itemset -> get_support_count a ts <> 0 ->
  is_frequent itemset ts ms = true ->
  Qle_bool mc (Qnat (get_support_count itemset ts) / Qnat (get_support_count a ts))%Q
    = true ->
  let conf := (Qnat (get_support_count itemset ts) / Qnat (get_support_count a ts))%Q in
  (conf <= 1)%Q /\ (mc <= conf)%Q /\ ((0 < ms)%Q \/ (0 < mc)%Q -> (0 < conf)%Q).
Proof.
  intros Hincl Ha Hf Hmc conf.
  pose proof (get_support_count_antimono a itemset ts Hincl) as Hle.
  pose proof (get_support_count_le a ts) as Hn.
  assert (Hpos : (0 < Qnat (get_support_count a ts))%Q)
    by (change 0%Q with (Qnat 0); apply Qnat_lt; lia).
  apply Qle_bool_iff in Hmc.
  split; [|split; [exact Hmc|]].
  - apply Qle_shift_div_r; [exact Hpos|]. rewrite Qmult_1_l. apply Qnat_le, Hle.
  - intros [Hms|Hmc0]; [|apply (Qlt_le_trans _ _ _ Hmc0 Hmc)].
    apply Qlt_shift_div_l; [exact Hpos|]. rewrite Qmult_0_l.
    unfold is_frequent in Hf.
    destruct (Qlt_le_dec ms 1) as [Hl|Hl].
    + apply Qle_bool_iff in Hf.
      refine (Qlt_le_trans _ _ _ _ Hf). apply Qmult_lt_0_compat; [exact Hms|].
      change 0%Q with (Qnat 0). apply Qnat_lt. lia.
    + apply Qle_bool_iff in Hf.
      exact (Qlt_le_trans _ _ _ Hms Hf).
Qed.

Lemma In_antecedent_candidates (items a : list Item) :
  In a (antecedent_candidates items) -> incl a items.
Proof.
  unfold antecedent_candidates. rewrite in_flat_map. intros [i [_ Ha]].
  apply combinations_incl in Ha. exact Ha.
Qed.

Lemma dict_get_In (k : nat) (fi : table) (recs : list (Itemset * nat)) :
  dict_get k fi = Some recs -> In (k, recs) fi.
Proof.
  induction fi as [|[k' v] fi IH]; simpl; [discriminate|].
  destruct (Nat.eqb_spec k k') as [->|]; [intros [= ->]; left; reflexivity|].
  intros H. right. apply IH, H.
Qed.

Section RulesBound.

Variable iter_order : Itemset -> list Item.
Variable ts : list Transaction.
Variable ms mc : Q.
Variable lift_of : Q -> Itemset -> res Q.
Variable keep_count : bool.
Hypothesis iter_incl : forall s x, In x (iter_order s) -> In x s.

Lemma rules_of_splits_bound (itemset : Itemset) (sc : nat) (ants : list (list Item))
  (acc rules : list rule) :
  good_record ts ms (itemset, sc) -> (forall a, In a ants -> incl a itemset) ->
  Forall (confidence_ok ms mc) acc ->
  rules_of_splits ts (length ts) mc lift_of keep_count itemset sc ants acc = Ok rules ->
  Forall (confidence_ok ms mc) rules.
Proof.
  intros [Hsc Hf]. simpl in Hsc, Hf. subst sc.
  revert acc. induction ants as [|a ants IH]; intros acc Hants Hacc H; simpl in H.
  - injection H as <-. exact Hacc.
  - assert (Hants' : forall a', In a' ants -> incl a' itemset)
      by (intros; apply Hants; right; assumption).
    destruct (Nat.eqb_spec (get_support_count a ts) 0) as [E|E];
      [exact (IH acc Hants' Hacc H)|].
    destruct (Qle_bool mc _) eqn:Hmc; [|exact (IH acc Hants' Hacc H)].
    unfold res_bind in H.
    destruct (qdiv _ _) as [sup|]; [|discriminate].
    destruct (lift_of _ _) as [l|]; [|discriminate].
    refine (IH _ Hants' _ H).
    apply Forall_app. split; [exact Hacc|]. constructor; [|constructor].
    apply (confidence_in_bounds ts ms mc itemset a); auto.
    apply Hants. left. reflexivity.
Qed.

Lemma rules_of_level_bound (recs : list (Itemset * nat)) (acc rules : list rule) :
  Forall (good_record ts ms) recs -> Forall (confidence_ok ms mc) acc ->
  rules_of_level iter_order ts (length ts) mc lift_of keep_count recs acc = Ok rules ->
  Forall (confidence_ok ms mc) rules.
Proof.
  revert acc. induction recs as [|[s sc] recs IH]; intros acc Hrecs Hacc H; simpl in H.
  - injection H as <-. exact Hacc.
  - inversion Hrecs as [|? ? Hr Hrecs']; subst.
    unfold res_bind in H.
    destruct (rules_of_splits _ _ _ _ _ _ _ _ _) as [acc'|] eqn:E; [|discriminate].
    apply (IH acc' Hrecs'); [|exact H].
    refine (rules_of_splits_bound s sc _ acc acc' Hr _ Hacc E).
    intros a Ha y Hy. apply iter_incl, (In_antecedent_candidates _ _ Ha), Hy.
Qed.

Lemma rules_of_levels_bound (ks : list nat) (fi : table) (acc rules : list rule) :
  (forall k recs, In (k, recs) fi -> Forall (good_record ts ms) recs) ->
  Forall (confidence_ok ms mc) acc ->
  rules_of_levels iter_order ts (length ts) mc lift_of keep_count ks fi acc = Ok rules ->
  Forall (confidence_ok ms mc) rules.
Proof.
  intros Hfi. revert acc. induction ks as [|k ks IH]; intros acc Hacc H; simpl in H.
  - injection H as <-. exact Hacc.
  - destruct (dict_get k fi) as [recs|] eqn:Hk; [|exact (IH acc Hacc H)].
    unfold res_bind in H.
    destruct (rules_of_level _ _ _ _ _ _ _ _) as [acc'|] eqn:E; [|discriminate].
    apply (IH acc'); [|exact H].
    refine (rules_of_level_bound recs acc acc' _ Hacc E).
    apply (Hfi k), dict_get_In, Hk.
Qed.

Lemma unsorted_rules_bound (fi : table) (rules : list rule) :
  (forall k recs, In (k, recs) fi -> Forall (good_record ts ms) recs) ->
  unsorted_rules iter_order ts (length ts) mc lift_of keep_count fi = Ok rules ->
  Forall (confidence_ok ms mc) rules.
Proof.
  intros Hfi H. unfold unsorted_rules, res_bind in H.
  destruct (max_key fi) as [m|]; [|discriminate].
  exact (rules_of_levels_bound _ fi [] rules Hfi (Forall_nil _) H).
Qed.

End RulesBound.

Lemma insert_rule_perm (r : rule) (l : list rule) : Permutation (insert_rule r l) (r :: l).
Proof.
  induction l as [|y ys IH]; simpl; [auto|].
  destruct (key_lt y r); [auto|].
  eapply perm_trans; [apply perm_skip, IH|apply perm_swap].
Qed.

Lemma sort_rules_perm (l : list rule) : Permutation (sort_rules l) l.
Proof.
  unfold sort_rules.
  assert (H : forall acc, Permutation (fold_left (fun acc r => insert_rule r acc) l acc)
                            (l ++ acc)).
  { induction l as [|x l IH]; intros acc; simpl; [auto|].
    eapply perm_trans; [apply IH|].
    eapply perm_trans; [apply Permutation_app_head, insert_rule_perm|].
    apply Permutation_sym, Permutation_middle. }
  rewrite <- (app_nil_r l) at 2. apply H.
Qed.

Lemma mined_records_good (rows : list (list Item)) (ms : Q) (tbl : table) :
  ABF.brute_force_mining rows (snd (ABF.load_transactions rows)) ms = Some tbl ->
  forall k recs, In (k, recs) tbl -> Forall (good_record rows ms) recs.
Proof.
  intros Hm k recs Hk. apply Forall_forall. intros [s c] Hs.
  destruct (brute_force_mining_records _ _ _ _ _ _ _ _ Hm Hk Hs) as [_ [Hc Hf]].
  split; assumption.
Qed.

(** ** The order of the returned rules *)

Lemma Qle_bool_false (x y : Q) : Qle_bool x y = false -> (y < x)%Q.
Proof.
  intros H. apply Qnot_le_lt. intros Hle. apply Qle_bool_iff in Hle. congruence.
Qed.

Lemma Qeq_bool_false (x y : Q) : Qeq_bool x y = false -> ~ (x == y)%Q.
Proof. intros H Heq. apply Qeq_bool_iff in Heq. congruence. Qed.

Lemma key_lt_spec (a b : rule) :
  (key_lt a b = true ->
     (confidence a < confidence b)%Q
     \/ (confidence a == confidence b /\ support a < support b)%Q)
  /\ (key_lt a b = false ->
     (confidence b < confidence a)%Q
     \/ (confidence a == confidence b /\ support b <= support a)%Q).
Proof.
  unfold key_lt, Qltb.
  destruct (Qle_bool (confidence b) (confidence a)) eqn:E1;
  destruct (Qeq_bool (confidence a) (confidence b)) eqn:E2;
  destruct (Qle_bool (support b) (support a)) eqn:E3; simpl;
  repeat match goal with
  | H : Qle_bool _ _ = true |- _ => apply Qle_bool_iff in H
  | H : Qle_bool _ _ = false |- _ => apply Qle_bool_false in H
  | H : Qeq_bool _ _ = true |- _ => apply Qeq_bool_iff in H
  | H : Qeq_bool _ _ = false |- _ => apply Qeq_bool_false in H
  end;
  split; intros H; try discriminate; lra.
Qed.

Lemma key_eqb_spec (a b : rule) :
  key_eqb a b = true <-> (confidence a == confidence b /\ support a == support b)%Q.
Proof.
  unfold key_eqb. rewrite andb_true_iff, !Qeq_bool_iff. reflexivity.
Qed.

Lemma key_lt_asym (a b : rule) : key_lt a b = true -> key_ge b a.
Proof.
  intros H. apply (proj1 (key_lt_spec a b)) in H. unfold key_ge.
  destruct (key_lt b a) eqn:E; [|reflexivity].
  apply (proj1 (key_lt_spec b a)) in E. lra.
Qed.

Lemma key_ge_trans (a b c : rule) : key_ge a b -> key_ge b c -> key_ge a c.
Proof.
  unfold key_ge. intros H1 H2.
  apply (proj2 (key_lt_spec a b)) in H1. apply (proj2 (key_lt_spec b c)) in H2.
  destruct (key_lt a c) eqn:E; [|reflexivity].
  apply (proj1 (key_lt_spec a c)) in E. lra.
Qed.

Lemma key_ge_lt_trans (z y r : rule) : key_ge y z -> key_lt y r = true -> key_lt z r = true.
Proof.
  unfold key_ge. intros H1 H2.
  apply (proj2 (key_lt_spec y z)) in H1. apply (proj1 (key_lt_spec y r)) in H2.
  destruct (key_lt z r) eqn:E; [reflexivity|].
  apply (proj2 (key_lt_spec z r)) in E. lra.
Qed.

Lemma key_lt_not_eq (v z r : rule) :
  key_eqb v r = true -> key_lt z r = true -> key_eqb v z = false.
Proof.
  intros H1 H2. apply key_eqb_spec in H1. apply (proj1 (key_lt_spec z r)) in H2.
  destruct (key_eqb v z) eqn:E; [|reflexivity].
  apply key_eqb_spec in E. lra.
Qed.

Lemma insert_rule_sorted (r : rule) (l : list rule) :
  Sorted key_ge l -> Sorted key_ge (insert_rule r l).
Proof.
  induction l as [|y ys IH]; intros Hl; simpl.
  - repeat constructor.
  - inversion Hl as [|? ? Hys Hhd]; subst.
    destruct (key_lt y r) eqn:E.
    + constructor; [exact Hl|]. constructor. apply key_lt_asym, E.
    + constructor; [apply IH, Hys|].
      destruct ys as [|z zs]; simpl.
      * constructor. exact E.
      * inversion Hhd; subst. destruct (key_lt z r); constructor; assumption.
Qed.

Lemma sort_rules_sorted (l : list rule) : Sorted key_ge (sort_rules l).
Proof.
  unfold sort_rules.
  assert (H : forall acc, Sorted key_ge acc ->
                Sorted key_ge (fold_left (fun acc r => insert_rule r acc) l acc)).
  { induction l as [|x l IH]; intros acc Hacc; simpl; [exact Hacc|].
    apply IH, insert_rule_sorted, Hacc. }
  apply H. constructor.
Qed.

Lemma insert_rule_filter (v r : rule) (l : list rule) :
  StronglySorted key_ge l ->
  filter (key_eqb v) (insert_rule r l)
  = filter (key_eqb v) l ++ (if key_eqb v r then [r] else []).
Proof.
  induction l as [|y ys IH]; intros Hl; simpl.
  - destruct (key_eqb v r); reflexivity.
  - inversion Hl as [|? ? Hys Hf]; subst.
    destruct (key_lt y r) eqn:E.
    + simpl. destruct (key_eqb v r) eqn:Evr.
      * assert (Hnone : filter (key_eqb v) (y :: ys) = []).
        { assert (Hall : forall z, In z (y :: ys) -> key_eqb v z = false).
          { intros z [Hz|Hz].
            - subst z. apply (key_lt_not_eq v y r Evr E).
            - rewrite Forall_forall in Hf.
              apply (key_lt_not_eq v z r Evr), (key_ge_lt_trans z y r (Hf z Hz) E). }
          clear -Hall. induction (y :: ys) as [|z zs IHz]; simpl; [reflexivity|].
          rewrite (Hall z (or_introl eq_refl)).
          apply IHz. intros w Hw. apply Hall. right. exact Hw. }
        simpl in Hnone. rewrite Hnone. reflexivity.
      * rewrite app_nil_r. reflexivity.
    + simpl. rewrite IH by exact Hys. destruct (key_eqb v y); reflexivity.
Qed.

(** [sorted] is stable: among rules with equal keys the order is kept. *)
Lemma sort_rules_stable (v : rule) (l : list rule) :
  filter (key_eqb v) (sort_rules l) = filter (key_eqb v) l.
Proof.
  unfold sort_rules.
  assert (H : forall acc, Sorted key_ge acc ->
                filter (key_eqb v) (fold_left (fun acc r => insert_rule r acc) l acc)
                = filter (key_eqb v) acc ++ filter (key_eqb v) l).
  { induction l as [|x l IH]; intros acc Hacc; simpl; [rewrite app_nil_r; reflexivity|].
    rewrite IH by (apply insert_rule_sorted, Hacc).
    rewrite insert_rule_filter.
    - rewrite <- app_assoc. destruct (key_eqb v x); reflexivity.
    - apply Sorted_StronglySorted; [|exact Hacc].
      intros a b c. apply key_ge_trans. }
  apply H. constructor.
Qed.

Lemma sort_rules_ordered_from (gen : list rule) : ordered_from gen (sort_rules gen).
Proof.
  split; [apply sort_rules_sorted|split].
  - apply Permutation_sym, sort_rules_perm.
  - intros v. apply sort_rules_stable.
Qed.

(** * The claims *)

(** ** C2 *)

(** C2 (code bug): the fractional test is evaluated in binary64.  With
    [min_support = 0.28] (the float [0x1.1eb851eb851ecp-2] that
    [float("0.28")] gives) and 25 transactions of which 7 contain the
    itemset, the support is exactly [7/25 = 28%] and
    [7 >= 0.28 * 25 = 7]; but the float product [0.28 * 25] is
    [7.000000000000001], above 7, and the three [is_frequent] functions
    answer False.  The rounding also errs the other way: the float nearest
    0.1 is above [1/10], so with 10 transactions of which 1 contains the
    itemset [1] is below the exact product, yet [0.1 * 10] rounds to
    [1.0] and the three functions answer True. *)
Theorem is_frequent_float_rounding :
  get_support_count [1] (repeat [1] 7 ++ repeat [] 18) = 7
  /\ length (repeat [1] 7 ++ repeat [] 18) = 25
  /\ Qeq (Qmult (28 # 100) (Qnat 25)) (Qnat 7)
  /\ (exists q, float_value (PrimFloat.mul 0x1.1eb851eb851ecp-2%float (float_of_nat 25))
                = Some q /\ Qlt (Qnat 7) q)
  /\ is_frequent_float [1] (repeat [1] 7 ++ repeat [] 18) 0x1.1eb851eb851ecp-2%float = false
  /\ BFM.is_frequent_float 0x1.1eb851eb851ecp-2%float
       (BFM.load_transactions (repeat [1] 7 ++ repeat [] 18) (BFM.init (28 # 100) 0)) [1]
     = false
  /\ IM.is_frequent_float (IM.load_transactions (repeat [1] 7 ++ repeat [] 18) IM.init) [1]
       0x1.1eb851eb851ecp-2%float = false
  /\ (exists q, float_value 0x1.999999999999ap-4%float = Some q
                /\ Qlt (1 # 10) q /\ Qlt (Qnat 1) (Qmult q (Qnat 10)))
  /\ is_frequent_float [1] ([1] :: repeat [] 9) 0x1.999999999999ap-4%float = true
  /\ BFM.is_frequent_float 0x1.999999999999ap-4%float
       (BFM.load_transactions ([1] :: repeat [] 9) (BFM.init (1 # 10) 0)) [1] = true
  /\ IM.is_frequent_float (IM.load_transactions ([1] :: repeat [] 9) IM.init) [1]
       0x1.999999999999ap-4%float = true.
Proof.
  split; [reflexivity|split; [reflexivity|split; [reflexivity|split]]].
  { eexists. split; [vm_compute; reflexivity|vm_compute; reflexivity]. }
  split; [vm_compute; reflexivity|split; [vm_compute; reflexivity|]].
  split; [vm_compute; reflexivity|split].
  { eexists. split; [vm_compute; reflexivity|split; vm_compute; reflexivity]. }
  split; [vm_compute; reflexivity|split; vm_compute; reflexivity].
Qed.

(** ** C9 *)

(** C9: mining terminates for every finite transaction store and every
    [min_support]: the level-wise loop of [brute_force_mining] finishes
    within [|universe| + 1] rounds (more rounds change nothing), since
    there is no [(|universe| + 1)]-subset of the universe; the loops of
    [BruteForceMiner.find_frequent_itemsets] and
    [InteractiveMiner.run_brute_force] finish within the same bound. *)
Theorem mining_terminates (ts : list Transaction) (all_items : list Item)
  (rows : list (list Item)) (ms mc : Q) (iter_order : Itemset -> list Item) :
  (exists tbl,
     ABF.brute_force_mining ts all_items ms = Some tbl
     /\ (forall fuel, S (length all_items) <= fuel ->
           ABF.mining_loop fuel ts (sort_items all_items) ms 1 [] = Some tbl))
  /\ combinations (sort_items all_items) (S (length all_items)) = []
  /\ BFM.find_frequent_itemsets (BFM.load_transactions rows (BFM.init ms mc)) <> None
  /\ IM.run_brute_force iter_order (IM.load_transactions rows IM.init) ms mc <> None.
Proof.
  split; [|split; [|split]].
  - destruct (brute_force_mining_shape ts all_items ms) as [tbl [K [E _]]].
    exists tbl. split; [exact E|].
    intros fuel Hf. apply mining_loop_enough_fuel; [exact E|].
    rewrite sort_items_length. exact Hf.
  - apply combinations_too_long. rewrite sort_items_length. lia.
  - unfold BFM.find_frequent_itemsets. rewrite bfm_find_loop by first [reflexivity|apply bfm_fresh_find_ok].
    cbn [BFM.load_transactions BFM.init BFM.transactions BFM.min_support
         BFM.frequent_itemsets BFM.all_items BFM.num_transactions].
    pose proof (mining_loop_some rows ms (sort_items (fold_left set_update rows []))
                  (S (length (sort_items (fold_left set_update rows [])))) 1 []) as Hs.
    intros H. apply Hs; try lia. revert H.
    destruct (ABF.mining_loop _ _ _ _ _ _); simpl; congruence.
  - unfold IM.run_brute_force. rewrite im_mining_loop by reflexivity.
    cbn [IM.load_transactions IM.init IM.transactions IM.all_items IM.num_transactions].
    pose proof (mining_loop_some rows ms (sort_items (fold_left set_update rows []))
                  (S (length (sort_items (fold_left set_update rows [])))) 1 []) as Hs.
    intros H. apply Hs; try lia. revert H.
    destruct (ABF.mining_loop _ _ _ _ _ _); congruence.
Qed.

(** ** C1 *)


(** C1 counterexample: with transactions [{1,2}], [{2}] and the absolute
    threshold 1, level 1 is recorded as [({1},1); ({2},2)], in enumeration
    order, which is not by descending count. *)
Lemma mining_levels_not_count_sorted :
  ~ C1_sorted_levels [[1;2];[2]] (snd (ABF.load_transactions [[1;2];[2]])) 1%Q.
Proof.
  intros H.
  assert (Hs : counts_descending [([1], 1); ([2], 2)]).
  { apply (H [(1, [([1], 1); ([2], 2)]); (2, [([1;2], 1)])] 1).
    - vm_compute. reflexivity.
    - left. reflexivity. }
  inversion Hs as [|a l _ Hrel E]. subst.
  inversion Hrel as [|b l' Hb]. simpl in Hb. lia.
Qed.

(** C1 (amended): [brute_force_mining] starts at [k = 1]; at each [k] it tests
    every k-itemset of the sorted universe; at the first [K] with no frequent
    K-itemset it stops and the table holds exactly the keys [1 .. K-1]; the
    entry under each [k < K] is non-empty and lists the frequent k-itemsets
    with their support counts in enumeration order (the display sorts a copy
    by count and leaves the table as it is). *)
Theorem mining_levels (ts : list Transaction) (all_items : list Item) (ms : Q) :
  exists tbl K,
    ABF.brute_force_mining ts all_items ms = Some tbl /\ 1 <= K
    /\ ABF.frequent_k ts ms (combinations (sort_items all_items) K) = []
    /\ (forall j, 1 <= j < K ->
          ABF.frequent_k ts ms (combinations (sort_items all_items) j) <> [])
    /\ tbl = map (fun j => (j, map (fun s => (s, get_support_count s ts))
                                   (filter (fun s => is_frequent s ts ms)
                                      (combinations (sort_items all_items) j))))
                (seq 1 (K - 1)).
Proof.
  destruct (brute_force_mining_shape ts all_items ms) as [tbl [K [E [HK [H1 [H2 ->]]]]]].
  exists (levels_table ts ms (sort_items all_items) (K - 1)), K.
  repeat split; auto.
  unfold levels_table, level. apply map_ext. intros j. rewrite frequent_k_filter.
  reflexivity.
Qed.

(** ** C5 *)


(** C5 counterexample: [1.0 < 1] is false, so [1.0] is the absolute count 1;
    over the transactions [{1}], [{2}] the itemset [{1}] is recorded with
    count 1, not 2. *)
Lemma min_support_one_is_count_one :
  ~ C5_only_full_support [[1];[2]] (snd (ABF.load_transactions [[1];[2]])).
Proof.
  intros H.
  assert (E : 1 = length [[1];[2]]).
  { apply (H [(1, [([1], 1); ([2], 1)])] 1 [([1], 1); ([2], 1)] [1] 1).
    - vm_compute. reflexivity.
    - left. reflexivity.
    - left. reflexivity. }
  simpl in E. lia.
Qed.

(** C5 (amended): [min_support = 1.0] is read as the absolute count 1, so
    every recorded itemset has support count at least 1; it is
    [min_support = numTransactions] (with at least one transaction) that
    records only itemsets present in every transaction, i.e. with support
    count [numTransactions]. *)
Theorem min_support_absolute_boundaries (ts : list Transaction) (all_items : list Item) :
  (forall tbl k recs s c, ABF.brute_force_mining ts all_items 1%Q = Some tbl ->
     In (k, recs) tbl -> In (s, c) recs ->
     c = get_support_count s ts /\ 1 <= c)
  /\ (1 <= length ts ->
      forall tbl k recs s c,
        ABF.brute_force_mining ts all_items (Qnat (length ts)) = Some tbl ->
        In (k, recs) tbl -> In (s, c) recs ->
        c = length ts /\ forall t, In t ts -> issubset s t = true).
Proof.
  split.
  - intros tbl k recs s c Hm Hk Hs.
    destruct (brute_force_mining_records _ _ _ _ _ _ _ _ Hm Hk Hs) as [_ [-> Hf]].
    split; [reflexivity|].
    unfold is_frequent in Hf.
    apply (proj2 (threshold_branches 1 _ _) (Qle_refl 1)) in Hf.
    change (Qnat 1 <= Qnat (get_support_count s ts))%Q in Hf.
    apply Qnat_le in Hf. exact Hf.
  - intros Hn tbl k recs s c Hm Hk Hs.
    destruct (brute_force_mining_records _ _ _ _ _ _ _ _ Hm Hk Hs) as [_ [-> Hf]].
    assert (H1 : (1 <= Qnat (length ts))%Q).
    { change (Qnat 1 <= Qnat (length ts))%Q. apply Qnat_le. exact Hn. }
    unfold is_frequent in Hf.
    apply (proj2 (threshold_branches _ _ _) H1) in Hf.
    apply Qnat_le in Hf. pose proof (get_support_count_le s ts).
    assert (Hc : get_support_count s ts = length ts) by lia.
    split; [exact Hc|]. apply get_support_count_full, Hc.
Qed.

(** ** C10 *)


(** ** C6 *)

(** C6: for a universe given as a set (no duplicates) and every [k], the
    candidates [combinations(sorted(universe), k)] are C(|U|, k) in number,
    pairwise distinct, each a k-element subset of the universe (written in
    sorted order), every k-element subset of the universe appears exactly
    once, with no filtering, and the sequence is in lexicographic order of
    the sorted universe; being a function of the universe alone, it is the
    same on every run. *)
Theorem enumerate_all_k_subsets (all_items : list Item) (k : nat) :
  NoDup all_items ->
  length (combinations (sort_items all_items) k) = choose (length all_items) k
  /\ NoDup (combinations (sort_items all_items) k)
  /\ (forall c, In c (combinations (sort_items all_items) k) ->
        length c = k /\ NoDup c /\ incl c all_items /\ StronglySorted lt c)
  /\ (forall S, NoDup S -> length S = k -> incl S all_items ->
        exists c, In c (combinations (sort_items all_items) k) /\ Permutation c S
          /\ (forall c', In c' (combinations (sort_items all_items) k) ->
                Permutation c' S -> c' = c))
  /\ StronglySorted lex_lt (combinations (sort_items all_items) k).
Proof.
  intros Hnd.
  pose proof (sort_items_perm all_items) as Hp.
  pose proof (sort_items_sorted all_items Hnd) as Hs.
  assert (Hnd' : NoDup (sort_items all_items))
    by (apply (Permutation_NoDup (Permutation_sym Hp)), Hnd).
  split; [rewrite combinations_length, sort_items_length; reflexivity|].
  split; [apply combinations_NoDup, Hnd'|].
  split; [|split].
  - intros c Hc. apply In_combinations in Hc. destruct Hc as [Hsub Hlen].
    repeat split.
    + exact Hlen.
    + apply (subseq_NoDup _ _ Hsub Hnd').
    + intros y Hy. apply (Permutation_in _ Hp), (subseq_incl _ _ Hsub), Hy.
    + apply (subseq_sorted _ _ Hsub Hs).
  - intros S HS HlenS HinS.
    set (c := filter (fun x => mem x S) (sort_items all_items)).
    assert (Hsub : subseq c (sort_items all_items)) by apply subseq_filter.
    assert (Hel : forall y, In y c <-> In y S).
    { intros y. unfold c. rewrite filter_In, mem_In. split; [tauto|].
      intros Hy. split; [|exact Hy]. apply (Permutation_in _ (Permutation_sym Hp)).
      apply HinS, Hy. }
    assert (HpS : Permutation c S).
    { apply NoDup_Permutation; [apply (subseq_NoDup _ _ Hsub Hnd')|exact HS|exact Hel]. }
    exists c. split; [|split].
    + apply In_combinations. split; [exact Hsub|].
      rewrite (Permutation_length HpS). exact HlenS.
    + exact HpS.
    + intros c' Hc' Hp'. apply In_combinations in Hc'. destruct Hc' as [Hsub' _].
      apply (subseq_same_elements (sort_items all_items)); auto.
      intros y. rewrite Hel. split; intros Hy.
      * apply (Permutation_in _ Hp'), Hy.
      * apply (Permutation_in _ (Permutation_sym Hp')), Hy.
  - apply combinations_lex_sorted, Hs.
Qed.

(** ** C7 *)


(** C7 counterexample: with [min_support = 0] every itemset is frequent,
    including [{1,2}] with count 0 over the transactions [{1}], [{2}]; with
    [min_confidence = 0] the rule [{1} -> {2}] is emitted with confidence 0. *)
Lemma zero_thresholds_emit_zero_confidence :
  ~ C7_confidence_bounds [[1];[2]] 0 0 (fun s => s).
Proof.
  intros H.
  assert (E1 : ABF.brute_force_mining [[1];[2]] (snd (ABF.load_transactions [[1];[2]])) 0
               = Some [(1, [([1], 1); ([2], 1)]); (2, [([1;2], 0)])])
    by (vm_compute; reflexivity).
  destruct (ABFRules.generate_association_rules (fun s => s)
              [(1, [([1], 1); ([2], 1)]); (2, [([1;2], 0)])] [[1];[2]] 0)
    as [rules|e] eqn:E2; [|vm_compute in E2; discriminate].
  pose proof (H _ _ E1 E2) as Hr.
  vm_compute in E2. injection E2 as <-.
  destruct (Hr _ (or_introl eq_refl)) as [Hpos _].
  vm_compute in Hpos. discriminate.
Qed.

(** C7 (amended): for the three rule generators applied to the mined table
    (with [list(itemset)] walking the itemset's own items), every emitted
    rule has [confidence <= 1] and [min_confidence <= confidence]; the
    confidence is positive as soon as [min_support > 0] or
    [min_confidence > 0]. *)
Theorem rule_confidence_bounds (rows : list (list Item)) (ms mc : Q)
  (iter_order : Itemset -> list Item) :
  (forall s x, In x (iter_order s) -> In x s) ->
  forall tbl,
    ABF.brute_force_mining rows (snd (ABF.load_transactions rows)) ms = Some tbl ->
    (forall rules, ABFRules.generate_association_rules iter_order tbl rows mc = Ok rules ->
       Forall (confidence_ok ms mc) rules)
    /\ (forall m m',
          BFM.find_frequent_itemsets (BFM.load_transactions rows (BFM.init ms mc))
          = Some (Ok m) ->
          BFM.generate_association_rules iter_order m = Ok m' ->
          Forall (confidence_ok ms mc) (BFM.association_rules m'))
    /\ (forall rules,
          IM.generate_rules iter_order (IM.load_transactions rows IM.init) tbl mc = Ok rules ->
          Forall (confidence_ok ms mc) rules).
Proof.
  intros Hio tbl Hm.
  pose proof (mined_records_good rows ms tbl Hm) as Hg.
  assert (Hsort : forall l, Forall (confidence_ok ms mc) l ->
                   Forall (confidence_ok ms mc) (sort_rules l)).
  { intros l Hl. rewrite Forall_forall in *. intros r Hr.
    apply Hl, (Permutation_in _ (sort_rules_perm l)), Hr. }
  split; [|split].
  - intros rules H. unfold ABFRules.generate_association_rules, res_bind in H.
    destruct (unsorted_rules _ _ _ _ _ _ _) as [l|] eqn:E; [|discriminate].
    injection H as <-. apply Hsort.
    exact (unsorted_rules_bound iter_order rows ms mc _ false Hio tbl l Hg E).
  - intros m m' Hf H.
    unfold BFM.find_frequent_itemsets in Hf. rewrite bfm_find_loop in Hf by first [reflexivity|apply bfm_fresh_find_ok].
    cbn [BFM.load_transactions BFM.init BFM.transactions BFM.min_support
         BFM.frequent_itemsets BFM.all_items BFM.num_transactions] in Hf.
    unfold ABF.brute_force_mining in Hm. cbn [ABF.load_transactions snd] in Hm.
    rewrite Hm in Hf. injection Hf as <-.
    unfold BFM.generate_association_rules, res_bind in H.
    cbn [BFM.with_frequent_itemsets BFM.load_transactions BFM.init BFM.transactions
         BFM.num_transactions BFM.min_confidence BFM.frequent_itemsets BFM.all_items
         BFM.min_support BFM.association_rules] in H.
    destruct (unsorted_rules _ _ _ _ _ _ _) as [l|] eqn:E; [|discriminate].
    injection H as <-. apply Hsort.
    exact (unsorted_rules_bound iter_order rows ms mc _ true Hio tbl l Hg E).
  - intros rules H. unfold IM.generate_rules in H.
    cbn [IM.load_transactions IM.init IM.transactions IM.num_transactions] in H.
    destruct tbl as [|p tbl'].
    + injection H as <-. constructor.
    + unfold res_bind in H.
      destruct (unsorted_rules _ _ _ _ _ _ _) as [l|] eqn:E; [|discriminate].
      injection H as <-. apply Hsort.
      exact (unsorted_rules_bound iter_order rows ms mc _ false Hio _ l Hg E).
Qed.

(** ** C8 *)


(** C8 counterexample: on the table mined from [{1,2}], [{1,2,3}], [{1}],
    [{2,3}] with [min_support = 0.5], the rules [{1} -> {2}] and
    [{2} -> {1}] both have key [(2/3, 1/2)]; the stable sort keeps them in
    generation order, which follows the iteration order of [{1,2}]. *)
Lemma rule_order_follows_set_iteration :
  ABF.brute_force_mining [[1;2];[1;2;3];[1];[2;3]]
    (snd (ABF.load_transactions [[1;2];[1;2;3];[1];[2;3]])) (1#2)
  = Some [(1, [([1], 3); ([2], 3); ([3], 2)]); (2, [([1;2], 2); ([2;3], 2)])]
  /\ ~ C8_deterministic [(1, [([1], 3); ([2], 3); ([3], 2)]); (2, [([1;2], 2); ([2;3], 2)])]
        [[1;2];[1;2;3];[1];[2;3]] (3#5).
Proof.
  split; [vm_compute; reflexivity|].
  intros H.
  assert (E := H (fun s => s) (@rev Item)
                 (sort_rules
                   [mk_rule [1] [2] (2#4) (2#3) (8#9) None;
                    mk_rule [2] [1] (2#4) (2#3) (8#9) None;
                    mk_rule [2] [3] (2#4) (2#3) (8#6) None;
                    mk_rule [3] [2] (2#4) (2#2) (8#6) None])
                 (sort_rules
                   [mk_rule [2] [1] (2#4) (2#3) (8#9) None;
                    mk_rule [1] [2] (2#4) (2#3) (8#9) None;
                    mk_rule [3] [2] (2#4) (2#2) (8#6) None;
                    mk_rule [2] [3] (2#4) (2#3) (8#6) None])
                 (fun s => Permutation_refl s) (fun s => Permutation_sym (Permutation_rev s))
                 ltac:(vm_compute; reflexivity) ltac:(vm_compute; reflexivity)).
  vm_compute in E. discriminate E.
Qed.

(** C8 (amended): each generator returns its generated rules, in the order
    the nested loops produce them (levels, then records, then the
    antecedents [combinations(list(itemset), i)]), sorted stably into
    descending [(confidence, support)] order: rules with equal keys keep
    their generation order, so the output depends on the iteration order
    of the frozensets and the order is not total on rules. *)
Theorem rules_sorted_stably (iter_order : Itemset -> list Item) :
  (forall tbl ts mc rules,
     ABFRules.generate_association_rules iter_order tbl ts mc = Ok rules ->
     exists gen,
       unsorted_rules iter_order ts (length ts) mc (guarded_lift ts (length ts)) false tbl
       = Ok gen /\ ordered_from gen rules)
  /\ (forall m m',
     BFM.generate_association_rules iter_order m = Ok m' ->
     exists gen,
       unsorted_rules iter_order (BFM.transactions m) (BFM.num_transactions m)
         (BFM.min_confidence m)
         (unguarded_lift (BFM.transactions m) (BFM.num_transactions m)) true
         (BFM.frequent_itemsets m)
       = Ok gen /\ ordered_from gen (BFM.association_rules m'))
  /\ (forall self tbl mc rules,
     IM.generate_rules iter_order self tbl mc = Ok rules ->
     (tbl = [] /\ rules = [])
     \/ exists gen,
       unsorted_rules iter_order (IM.transactions self) (IM.num_transactions self) mc
         (guarded_lift (IM.transactions self) (IM.num_transactions self)) false tbl
       = Ok gen /\ ordered_from gen rules).
Proof.
  split; [|split].
  - intros tbl ts mc rules H. unfold ABFRules.generate_association_rules, res_bind in H.
    destruct (unsorted_rules _ _ _ _ _ _ _) as [gen|] eqn:E; [|discriminate].
    injection H as <-. exists gen. split; [reflexivity|apply sort_rules_ordered_from].
  - intros m m' H. unfold BFM.generate_association_rules, res_bind in H.
    destruct (unsorted_rules _ _ _ _ _ _ _) as [gen|] eqn:E; [|discriminate].
    injection H as <-. exists gen. split; [reflexivity|apply sort_rules_ordered_from].
  - intros self tbl mc rules H. unfold IM.generate_rules in H.
    destruct tbl as [|p tbl'].
    + left. injection H as <-. split; reflexivity.
    + right. unfold res_bind in H.
      destruct (unsorted_rules _ _ _ _ _ _ _) as [gen|] eqn:E; [|discriminate].
      injection H as <-. exists gen. split; [reflexivity|apply sort_rules_ordered_from].
Qed.

(** ** C3 *)

(** C3: [BruteForceMiner] divides by the consequent's support without a
    guard.  Over the transactions [{1}], [{2}], [{3}] with both thresholds
    0, every itemset is frequent; the rule [{1} -> {2,3}] has confidence
    [0/1 >= 0] and a consequent of support 0, so [BruteForceMiner] raises
    [ZeroDivisionError], while [generate_association_rules] and
    [InteractiveMiner.generate_rules] emit that rule with lift 0. *)
Theorem bfm_consequent_support_zero_division :
  (exists m,
     BFM.find_frequent_itemsets (BFM.load_transactions [[1];[2];[3]] (BFM.init 0 0))
     = Some (Ok m)
     /\ BFM.generate_association_rules (fun s => s) m = Err ZeroDivisionError)
  /\ (exists tbl rules,
     ABF.brute_force_mining [[1];[2];[3]] (snd (ABF.load_transactions [[1];[2];[3]])) 0
     = Some tbl
     /\ ABFRules.generate_association_rules (fun s => s) tbl [[1];[2];[3]] 0 = Ok rules
     /\ IM.generate_rules (fun s => s) (IM.load_transactions [[1];[2];[3]] IM.init) tbl 0
        = Ok rules
     /\ exists r, In r rules /\ antecedent r = [1] /\ consequent r = [2;3]
           /\ get_support_count (consequent r) [[1];[2];[3]] = 0 /\ lift r = 0%Q).
Proof.
  split.
  - eexists. split; [vm_compute; reflexivity|vm_compute; reflexivity].
  - do 2 eexists. split; [vm_compute; reflexivity|].
    split; [vm_compute; reflexivity|].
    split; [vm_compute; reflexivity|].
    exists (mk_rule [1] [2;3] (0#3) 0 0 None). split.
    + vm_compute. repeat (first [left; reflexivity | right]).
    + repeat split.
Qed.

(** ** C4 *)

(** C4: an empty frequent-itemset table is not handled alike.  Mining zero
    transactions gives the empty table; [generate_association_rules] and
    [BruteForceMiner.generate_association_rules] then call [max] on no keys
    and raise [ValueError] (for any transactions, so also when no
    1-itemset is frequent), while [InteractiveMiner] returns no rules. *)
Theorem empty_table_rule_derivation (iter_order : Itemset -> list Item) (ms mc : Q) :
  ABF.brute_force_mining [] (snd (ABF.load_transactions [])) ms = Some []
  /\ (forall ts, ABFRules.generate_association_rules iter_order [] ts mc = Err ValueError)
  /\ (exists m,
        BFM.find_frequent_itemsets (BFM.load_transactions [] (BFM.init ms mc)) = Some (Ok m)
        /\ BFM.frequent_itemsets m = []
        /\ BFM.generate_association_rules iter_order m = Err ValueError)
  /\ (forall m, BFM.frequent_itemsets m = [] ->
        BFM.generate_association_rules iter_order m = Err ValueError)
  /\ IM.run_brute_force iter_order (IM.load_transactions [] IM.init) ms mc
     = Some (Ok ([], []))
  /\ (forall self, IM.generate_rules iter_order self [] mc = Ok []).
Proof.
  split; [reflexivity|split; [reflexivity|split; [|split; [|split; [reflexivity|]]]]].
  - eexists. split; [reflexivity|split; reflexivity].
  - intros m Hm. unfold BFM.generate_association_rules, unsorted_rules, res_bind.
    rewrite Hm. reflexivity.
  - intros self. reflexivity.
Qed.

(** * Further properties of the code *)

(** ** Parsing the [Items] cell *)

Lemma lstrip_suffix (s : ustring) : exists p, s = p ++ lstrip s.
Proof.
  induction s as [|c s [p IH]]; simpl; [exists []; reflexivity|].
  destruct (is_space c); [exists (c :: p); simpl; rewrite <- IH; reflexivity|].
  exists []. reflexivity.
Qed.

Lemma lstrip_head (s : ustring) :
  lstrip s = [] \/ exists c t, lstrip s = c :: t /\ is_space c = false.
Proof.
  induction s as [|c s IH]; simpl; [left; reflexivity|].
  destruct (is_space c) eqn:E; [exact IH|right; exists c, s; auto].
Qed.

Lemma lstrip_idem (s : ustring) : lstrip (lstrip s) = lstrip s.
Proof.
  destruct (lstrip_head s) as [->|[c [t [-> E]]]]; simpl; [reflexivity|].
  rewrite E. reflexivity.
Qed.

Lemma lstrip_spaces (sp s : ustring) :
  forallb is_space sp = true -> lstrip (sp ++ s) = lstrip s.
Proof.
  induction sp as [|c sp IH]; simpl; [reflexivity|].
  intros H. apply andb_true_iff in H. destruct H as [H1 H2]. rewrite H1. apply IH, H2.
Qed.

Lemma strip_idem (s : ustring) : strip (strip s) = strip s.
Proof.
  unfold strip. set (u := lstrip s). set (v := lstrip (rev u)).
  assert (Hv : lstrip (rev v) = rev v).
  { destruct (lstrip_suffix (rev u)) as [p Hp]. fold v in Hp.
    assert (Hu : u = rev v ++ rev p).
    { rewrite <- (rev_involutive u), Hp, rev_app_distr. reflexivity. }
    destruct (rev v) as [|c t] eqn:Ev; [reflexivity|].
    destruct (lstrip_head s) as [Hs|[c' [t' [Hs E]]]]; fold u in Hs.
    - rewrite Hs in Hu. destruct (rev p); discriminate.
    - rewrite Hs in Hu. injection Hu as <- _. simpl. rewrite E. reflexivity. }
  rewrite Hv, rev_involutive. unfold v. rewrite lstrip_idem. reflexivity.
Qed.

Lemma strip_incl (s : ustring) : incl (strip s) s.
Proof.
  unfold strip. intros x Hx. apply in_rev in Hx.
  destruct (lstrip_suffix (rev (lstrip s))) as [p Hp].
  assert (H1 : In x (rev (lstrip s))) by (rewrite Hp; apply in_or_app; right; exact Hx).
  apply in_rev in H1.
  destruct (lstrip_suffix s) as [q Hq]. rewrite Hq. apply in_or_app. right. exact H1.
Qed.

Lemma split_on_nonnil (sep : N) (s : ustring) : split_on sep s <> [].
Proof.
  induction s as [|c s IH]; simpl; [discriminate|].
  destruct (N.eqb c sep); [discriminate|]. destruct (split_on sep s); discriminate.
Qed.

Lemma split_on_pieces (sep : N) (s w : ustring) : In w (split_on sep s) -> ~ In sep w.
Proof.
  revert w. induction s as [|c s IH]; intros w; simpl.
  - intros [<-|[]] [].
  - destruct (N.eqb_spec c sep) as [->|Hc].
    + intros [<-|Hw]; [intros []|apply IH, Hw].
    + destruct (split_on sep s) as [|w' ws] eqn:E; [exfalso; apply (split_on_nonnil sep s E)|].
      intros [<-|Hw].
      * intros [Hx|Hx]; [congruence|]. apply (IH w'); [left; reflexivity|exact Hx].
      * apply IH. right. exact Hw.
Qed.

Lemma split_on_length (sep : N) (s : ustring) :
  length (split_on sep s) = S (length (filter (N.eqb sep) s)).
Proof.
  induction s as [|c s IH]; simpl; [reflexivity|].
  rewrite (N.eqb_sym sep c).
  destruct (N.eqb c sep); simpl; [rewrite IH; reflexivity|].
  destruct (split_on sep s) as [|w ws] eqn:E; [exfalso; apply (split_on_nonnil sep s E)|].
  exact IH.
Qed.

Lemma split_on_prefix (sep : N) (p r : ustring) :
  ~ In sep p ->
  split_on sep (p ++ r)
  = match split_on sep r with [] => [p] | w :: ws => (p ++ w) :: ws end.
Proof.
  induction p as [|c p IH]; intros Hp; simpl.
  - destruct (split_on sep r) as [|w ws] eqn:E; [exfalso; apply (split_on_nonnil sep r E)|].
    reflexivity.
  - destruct (N.eqb_spec c sep) as [->|Hc]; [exfalso; apply Hp; left; reflexivity|].
    rewrite IH by (intros H; apply Hp; right; exact H).
    destruct (split_on sep r) as [|w ws] eqn:E; [exfalso; apply (split_on_nonnil sep r E)|].
    reflexivity.
Qed.

Lemma split_on_sep (sep : N) (p r : ustring) :
  ~ In sep p -> split_on sep (p ++ sep :: r) = p :: split_on sep r.
Proof.
  intros Hp. rewrite split_on_prefix by exact Hp. simpl. rewrite N.eqb_refl.
  rewrite app_nil_r. reflexivity.
Qed.

(** ** Loading transactions *)

Lemma set_update_In (acc items : list Item) (x : Item) :
  In x (set_update acc items) <-> In x acc \/ In x items.
Proof.
  unfold set_update. revert acc. induction items as [|y ys IH]; intros acc; simpl.
  - tauto.
  - rewrite IH. destruct (mem y acc) eqn:E.
    + apply mem_In in E. split; [tauto|]. intros [H|[<-|H]]; auto.
    + rewrite in_app_iff. simpl. split; [tauto|]. intros [H|[<-|H]]; auto.
Qed.

Lemma set_update_NoDup (acc items : list Item) :
  NoDup acc -> NoDup (set_update acc items).
Proof.
  unfold set_update. revert acc. induction items as [|y ys IH]; intros acc Hacc; simpl;
    [exact Hacc|].
  apply IH. destruct (mem y acc) eqn:E; [exact Hacc|].
  apply NoDup_app; [exact Hacc|repeat constructor; intros []|].
  intros x Hx [<-|[]]. apply mem_In in Hx. congruence.
Qed.

Lemma load_items_In (rows : list (list Item)) (acc : list Item) (x : Item) :
  In x (fold_left set_update rows acc) <-> In x acc \/ exists t, In t rows /\ In x t.
Proof.
  revert acc. induction rows as [|t rows IH]; intros acc; simpl.
  - split; [tauto|]. intros [H|[t [[] _]]]. exact H.
  - rewrite IH, set_update_In. split.
    + intros [[H|H]|[t' [Ht' H]]]; [left; exact H|right; exists t; auto|right; eauto].
    + intros [H|[t' [[<-|Ht'] H]]]; [left; left; exact H|left; right; exact H|right; eauto].
Qed.

Lemma load_items_NoDup (rows : list (list Item)) (acc : list Item) :
  NoDup acc -> NoDup (fold_left set_update rows acc).
Proof.
  revert acc. induction rows as [|t rows IH]; intros acc H; simpl; [exact H|].
  apply IH, set_update_NoDup, H.
Qed.

(** ** Support counts and the frequency test *)

Lemma get_support_count_all (s : Itemset) (ts : list Transaction) :
  (forall t, In t ts -> issubset s t = true) -> get_support_count s ts = length ts.
Proof.
  induction ts as [|t ts IH]; intros H; simpl; [reflexivity|].
  rewrite (H t (or_introl eq_refl)). f_equal. apply IH. intros t' Ht'. apply H. right. exact Ht'.
Qed.

Lemma get_support_count_nil (ts : list Transaction) : get_support_count [] ts = length ts.
Proof. apply get_support_count_all. reflexivity. Qed.

Lemma is_frequent_count_mono (s a : Itemset) (ts : list Transaction) (ms : Q) :
  get_support_count s ts <= get_support_count a ts ->
  is_frequent s ts ms = true -> is_frequent a ts ms = true.
Proof.
  unfold is_frequent. intros Hc.
  assert (Hq : (Qnat (get_support_count s ts) <= Qnat (get_support_count a ts))%Q)
    by (apply Qnat_le; exact Hc).
  destruct (Qlt_le_dec ms 1); rewrite !Qle_bool_iff; intros H; eapply Qle_trans; eauto.
Qed.

Lemma is_frequent_incl (s a : Itemset) (ts : list Transaction) (ms : Q) :
  incl a s -> is_frequent s ts ms = true -> is_frequent a ts ms = true.
Proof.
  intros H. apply is_frequent_count_mono, get_support_count_antimono, H.
Qed.

(** ** The mined table *)

Lemma subseq_tail (c l : list Item) :
  subseq c l -> forall x c', c = x :: c' -> subseq c' l.
Proof.
  induction 1 as [l|y c l H IH|y c l H IH]; intros x c' E.
  - discriminate.
  - injection E as -> ->. apply subseq_skip, H.
  - apply subseq_skip, (IH x c' E).
Qed.

Lemma subseq_trans (a b c : list Item) : subseq a b -> subseq b c -> subseq a c.
Proof.
  intros H1 H2. revert a H1. induction H2 as [l|x b l H IH|x b l H IH]; intros a H1.
  - inversion H1; subst. constructor.
  - inversion H1 as [|? a' ? Ha|? ? ? Ha]; subst.
    + constructor.
    + apply subseq_take, IH, Ha.
    + apply subseq_skip, IH, Ha.
  - apply subseq_skip, IH, H1.
Qed.

Lemma subseq_firstn (n : nat) (c : list Item) : subseq (firstn n c) c.
Proof.
  revert n. induction c as [|x c IH]; intros [|n]; simpl; try constructor.
  apply IH.
Qed.

Lemma level_empty_S (ts : list Transaction) (ms : Q) (il : list Item) (k : nat) :
  ABF.frequent_k ts ms (combinations il k) = [] ->
  ABF.frequent_k ts ms (combinations il (S k)) = [].
Proof.
  rewrite !frequent_k_filter. intros H.
  destruct (filter (fun s => is_frequent s ts ms) (combinations il (S k)))
    as [|c cs] eqn:E; [reflexivity|exfalso].
  assert (Hc : In c (filter (fun s => is_frequent s ts ms) (combinations il (S k))))
    by (rewrite E; left; reflexivity).
  apply filter_In in Hc. destruct Hc as [Hc Hf]. apply In_combinations in Hc.
  destruct Hc as [Hsub Hlen]. destruct c as [|x c']; [discriminate|].
  assert (Hc' : In c' (filter (fun s => is_frequent s ts ms) (combinations il k))).
  { apply filter_In. split.
    - apply In_combinations. split; [apply (subseq_tail _ _ Hsub x c' eq_refl)|].
      simpl in Hlen. lia.
    - apply (is_frequent_incl (x :: c')); [intros y Hy; right; exact Hy|exact Hf]. }
  destruct (filter (fun s => is_frequent s ts ms) (combinations il k)); [destruct Hc'|].
  discriminate.
Qed.

Lemma mined_sound (ts : list Transaction) (all_items : list Item) (ms : Q) (tbl : table) :
  NoDup all_items ->
  ABF.brute_force_mining ts all_items ms = Some tbl ->
  forall k recs, In (k, recs) tbl ->
    NoDup (map fst recs)
    /\ forall s c, In (s, c) recs ->
         1 <= k /\ length s = k /\ StronglySorted lt s /\ incl s all_items
         /\ c = get_support_count s ts /\ is_frequent s ts ms = true.
Proof.
  intros Hnd Hm k recs Hin.
  assert (Hnd' : NoDup (sort_items all_items))
    by (apply (Permutation_NoDup (Permutation_sym (sort_items_perm all_items))), Hnd).
  destruct (brute_force_mining_shape ts all_items ms) as [tbl' [K [E [HK [_ [_ ->]]]]]].
  rewrite Hm in E. injection E as ->.
  unfold levels_table in Hin. apply in_map_iff in Hin.
  destruct Hin as [j [E Hj]]. injection E as <- <-. apply in_seq in Hj.
  split.
  - unfold level. rewrite frequent_k_filter, map_map.
    rewrite (map_ext _ (fun s => s)) by reflexivity. rewrite map_id.
    apply NoDup_filter, combinations_NoDup, Hnd'.
  - intros s c Hsc.
    destruct (brute_force_mining_records ts all_items ms _ j _ s c Hm
                ltac:(unfold levels_table; apply in_map_iff; exists j; split;
                      [reflexivity|apply in_seq; lia]) Hsc) as [Hs [Hc Hf]].
    apply In_combinations in Hs. destruct Hs as [Hsub Hlen].
    repeat split; try assumption; try lia.
    + apply (subseq_sorted _ _ Hsub), sort_items_sorted, Hnd.
    + intros y Hy. apply (Permutation_in _ (sort_items_perm all_items)).
      apply (subseq_incl _ _ Hsub), Hy.
Qed.

Lemma mined_complete (ts : list Transaction) (all_items : list Item) (ms : Q) (tbl : table)
  (s : Itemset) :
  NoDup all_items ->
  ABF.brute_force_mining ts all_items ms = Some tbl ->
  s <> [] -> NoDup s -> incl s all_items -> is_frequent s ts ms = true ->
  exists recs s',
    In (length s, recs) tbl /\ In (s', get_support_count s ts) recs /\ Permutation s' s.
Proof.
  intros Hnd Hm Hne HS HinS Hf.
  set (l := sort_items all_items).
  assert (Hp : Permutation l all_items) by apply sort_items_perm.
  assert (Hnd' : NoDup l) by (apply (Permutation_NoDup (Permutation_sym Hp)), Hnd).
  set (c := filter (fun x => mem x s) l).
  assert (Hsub : subseq c l) by apply subseq_filter.
  assert (Hel : forall y, In y c <-> In y s).
  { intros y. unfold c. rewrite filter_In, mem_In. split; [tauto|].
    intros Hy. split; [|exact Hy]. apply (Permutation_in _ (Permutation_sym Hp)), HinS, Hy. }
  assert (HpS : Permutation c s) by
    (apply NoDup_Permutation; [apply (subseq_NoDup _ _ Hsub Hnd')|exact HS|exact Hel]).
  assert (Hcount : get_support_count c ts = get_support_count s ts).
  { apply Nat.le_antisymm; apply get_support_count_antimono; intros y Hy; apply Hel, Hy. }
  assert (Hlev : forall j, 1 <= j <= length s -> level ts ms l j <> []).
  { intros j Hj. unfold level. rewrite frequent_k_filter.
    assert (Hin : In (firstn j c) (filter (fun s => is_frequent s ts ms) (combinations l j))).
    { apply filter_In. split.
      - apply In_combinations. split.
        + apply (subseq_trans _ c); [apply subseq_firstn|exact Hsub].
        + rewrite length_firstn, (Permutation_length HpS). lia.
      - apply (is_frequent_incl s); [|exact Hf].
        intros y Hy. apply Hel, (subseq_incl _ _ (subseq_firstn j c)), Hy. }
    destruct (filter (fun s => is_frequent s ts ms) (combinations l j)); [destruct Hin|].
    discriminate. }
  destruct (brute_force_mining_shape ts all_items ms) as [tbl' [K [E [HK [HKe [_ ->]]]]]].
  rewrite Hm in E. injection E as ->.
  assert (Hlen : 1 <= length s) by (destruct s; [congruence|simpl; lia]).
  assert (HsK : length s < K).
  { destruct (Nat.lt_ge_cases (length s) K) as [H|H]; [exact H|].
    exfalso. apply (Hlev K); [lia|exact HKe]. }
  exists (level ts ms l (length s)), c. split; [|split].
  - unfold levels_table. apply in_map_iff. exists (length s). split; [reflexivity|].
    apply in_seq. lia.
  - unfold level. rewrite frequent_k_filter, <- Hcount. apply in_map_iff.
    exists c. split; [reflexivity|]. apply filter_In. split.
    + apply In_combinations. split; [exact Hsub|apply (Permutation_length HpS)].
    + apply (is_frequent_count_mono s); [lia|exact Hf].
  - exact HpS.
Qed.



(** ** Where each generated rule comes from *)

Section RuleMembership.

Variable iter_order : Itemset -> list Item.
Variable ts : list Transaction.
Variable n : nat.
Variable mc : Q.
Variable lift_of : Q -> Itemset -> res Q.
Variable keep_count : bool.

Lemma rules_of_splits_In (s : Itemset) (sc : nat) (ants : list (list Item))
  (acc rules : list rule) (r : rule) :
  rules_of_splits ts n mc lift_of keep_count s sc ants acc = Ok rules -> In r rules ->
  In r acc \/ exists a, In a ants /\ emitted_rule ts n mc lift_of keep_count s sc a r.
Proof.
  revert acc. induction ants as [|a ants IH]; intros acc H Hr; simpl in H.
  - injection H as <-. left. exact Hr.
  - assert (Hrest : forall acc', rules_of_splits ts n mc lift_of keep_count s sc ants acc'
                                 = Ok rules ->
              (In r acc' -> In r acc \/ exists a', In a' (a :: ants)
                                   /\ emitted_rule ts n mc lift_of keep_count s sc a' r) ->
              In r acc \/ exists a', In a' (a :: ants)
                                   /\ emitted_rule ts n mc lift_of keep_count s sc a' r).
    { intros acc' H' Hacc'. destruct (IH acc' H' Hr) as [H1|[a' [Ha' H2]]].
      - apply Hacc', H1.
      - right. exists a'. split; [right; exact Ha'|exact H2]. }
    destruct (Nat.eqb_spec (get_support_count a ts) 0) as [E|E].
    + apply (Hrest acc H). intros H1. left. exact H1.
    + destruct (Qle_bool mc _) eqn:Ec; [|apply (Hrest acc H); intros H1; left; exact H1].
      unfold res_bind, qdiv in H. destruct (Qeq_bool (Qnat n) 0) eqn:En; [discriminate|].
      destruct (lift_of _ _) as [l|] eqn:El; [|discriminate].
      apply (Hrest _ H). intros H1. apply in_app_or in H1.
      destruct H1 as [H1|[<-|[]]]; [left; exact H1|].
      right. exists a. split; [left; reflexivity|].
      unfold emitted_rule. simpl. repeat split; assumption.
Qed.

Lemma rules_of_level_In (recs : list (Itemset * nat)) (acc rules : list rule) (r : rule) :
  rules_of_level iter_order ts n mc lift_of keep_count recs acc = Ok rules -> In r rules ->
  In r acc \/ exists s sc a, In (s, sc) recs /\ In a (antecedent_candidates (iter_order s))
                            /\ emitted_rule ts n mc lift_of keep_count s sc a r.
Proof.
  revert acc. induction recs as [|[s sc] recs IH]; intros acc H Hr; simpl in H.
  - injection H as <-. left. exact Hr.
  - unfold res_bind in H.
    destruct (rules_of_splits ts n mc lift_of keep_count s sc
                (antecedent_candidates (iter_order s)) acc) as [acc'|] eqn:E; [|discriminate].
    destruct (IH acc' H Hr) as [H1|[s' [sc' [a [H2 [H3 H4]]]]]].
    + destruct (rules_of_splits_In s sc _ acc acc' r E H1) as [H5|[a [H5 H6]]].
      * left. exact H5.
      * right. exists s, sc, a. split; [left; reflexivity|split; assumption].
    + right. exists s', sc', a. split; [right; exact H2|split; assumption].
Qed.

Lemma rules_of_levels_In (ks : list nat) (fi : table) (acc rules : list rule) (r : rule) :
  rules_of_levels iter_order ts n mc lift_of keep_count ks fi acc = Ok rules -> In r rules ->
  In r acc \/ exists k recs s sc a,
    In k ks /\ dict_get k fi = Some recs /\ In (s, sc) recs
    /\ In a (antecedent_candidates (iter_order s))
    /\ emitted_rule ts n mc lift_of keep_count s sc a r.
Proof.
  revert acc. induction ks as [|k ks IH]; intros acc H Hr; simpl in H.
  - injection H as <-. left. exact Hr.
  - destruct (dict_get k fi) as [recs|] eqn:Ek.
    + unfold res_bind in H.
      destruct (rules_of_level iter_order ts n mc lift_of keep_count recs acc)
        as [acc'|] eqn:E; [|discriminate].
      destruct (IH acc' H Hr) as [H1|[k' [recs' [s [sc [a [H2 H3]]]]]]].
      * destruct (rules_of_level_In recs acc acc' r E H1) as [H4|[s [sc [a [H4 H5]]]]].
        -- left. exact H4.
        -- right. exists k, recs, s, sc, a. split; [left; reflexivity|split; [exact Ek|]].
           split; assumption.
      * right. exists k', recs', s, sc, a. split; [right; exact H2|exact H3].
    + destruct (IH acc H Hr) as [H1|[k' [recs' [s [sc [a [H2 H3]]]]]]].
      * left. exact H1.
      * right. exists k', recs', s, sc, a. split; [right; exact H2|exact H3].
Qed.

Lemma unsorted_rules_In (fi : table) (rules : list rule) (r : rule) :
  unsorted_rules iter_order ts n mc lift_of keep_count fi = Ok rules -> In r rules ->
  exists k recs s sc a,
    2 <= k /\ In (k, recs) fi /\ In (s, sc) recs
    /\ In a (antecedent_candidates (iter_order s))
    /\ emitted_rule ts n mc lift_of keep_count s sc a r.
Proof.
  unfold unsorted_rules, res_bind. destruct (max_key fi) as [m|]; [|discriminate].
  intros H Hr. destruct (rules_of_levels_In _ fi [] rules r H Hr)
    as [[]|[k [recs [s [sc [a [Hk [Hg H']]]]]]]].
  apply in_seq in Hk. exists k, recs, s, sc, a. split; [lia|].
  split; [apply dict_get_In, Hg|exact H'].
Qed.

End RuleMembership.

(** ** The lift with and without the guard *)

Lemma Qnat_nonneg (a : nat) : (0 <= Qnat a)%Q.
Proof. apply (Qnat_le 0 a). lia. Qed.

Lemma Qnat_inj (a b : nat) : (Qnat a == Qnat b)%Q -> a = b.
Proof. unfold Qnat, Qeq. simpl. lia. Qed.

Lemma count_ratio_nonneg (a b : nat) : (0 <= Qnat a / Qnat b)%Q.
Proof. apply Qmult_le_0_compat; [apply Qnat_nonneg|apply Qinv_le_0_compat, Qnat_nonneg]. Qed.

Lemma unguarded_guarded (ts : list Transaction) (n : nat) (c : Q) (x : Itemset) (l : Q) :
  unguarded_lift ts n c x = Ok l -> guarded_lift ts n c x = Ok l.
Proof.
  unfold unguarded_lift, guarded_lift, res_bind, qdiv.
  destruct (Qeq_bool (Qnat n) 0); [discriminate|].
  set (cs := (Qnat (get_support_count x ts) / Qnat n)%Q).
  destruct (Qeq_bool cs 0) eqn:E; [discriminate|]. intros H. injection H as <-.
  destruct (Qlt_le_dec 0 cs) as [_|Hle]; [reflexivity|].
  exfalso. assert (Hc : (0 <= cs)%Q) by apply count_ratio_nonneg.
  assert (Heq : (cs == 0)%Q) by (apply Qle_antisym; assumption).
  apply Qeq_bool_iff in Heq. congruence.
Qed.

Lemma rules_of_splits_agree (ts : list Transaction) (n : nat) (mc : Q) (s : Itemset)
  (sc : nat) (ants : list (list Item)) (acc rules : list rule) :
  rules_of_splits ts n mc (unguarded_lift ts n) true s sc ants acc = Ok rules ->
  rules_of_splits ts n mc (guarded_lift ts n) false s sc ants (map drop_support_count acc)
  = Ok (map drop_support_count rules).
Proof.
  revert acc. induction ants as [|a ants IH]; intros acc H; simpl in H |- *.
  - injection H as <-. reflexivity.
  - destruct (Nat.eqb (get_support_count a ts) 0); [apply IH, H|].
    destruct (Qle_bool mc _); [|apply IH, H].
    unfold res_bind in H |- *. destruct (qdiv _ _) as [sup|e]; [|discriminate].
    destruct (unguarded_lift ts n _ _) as [l|e] eqn:El; [|discriminate].
    rewrite (unguarded_guarded _ _ _ _ _ El).
    specialize (IH _ H). rewrite map_app in IH. exact IH.
Qed.

Lemma rules_of_level_agree (iter_order : Itemset -> list Item) (ts : list Transaction)
  (n : nat) (mc : Q) (recs : list (Itemset * nat)) (acc rules : list rule) :
  rules_of_level iter_order ts n mc (unguarded_lift ts n) true recs acc = Ok rules ->
  rules_of_level iter_order ts n mc (guarded_lift ts n) false recs
    (map drop_support_count acc) = Ok (map drop_support_count rules).
Proof.
  revert acc. induction recs as [|[s sc] recs IH]; intros acc H; simpl in H |- *.
  - injection H as <-. reflexivity.
  - unfold res_bind in H |- *.
    destruct (rules_of_splits ts n mc (unguarded_lift ts n) true s sc _ acc)
      as [acc'|e] eqn:E; [|discriminate].
    rewrite (rules_of_splits_agree _ _ _ _ _ _ _ _ E). apply IH, H.
Qed.

Lemma rules_of_levels_agree (iter_order : Itemset -> list Item) (ts : list Transaction)
  (n : nat) (mc : Q) (ks : list nat) (fi : table) (acc rules : list rule) :
  rules_of_levels iter_order ts n mc (unguarded_lift ts n) true ks fi acc = Ok rules ->
  rules_of_levels iter_order ts n mc (guarded_lift ts n) false ks fi
    (map drop_support_count acc) = Ok (map drop_support_count rules).
Proof.
  revert acc. induction ks as [|k ks IH]; intros acc H; simpl in H |- *.
  - injection H as <-. reflexivity.
  - destruct (dict_get k fi) as [recs|]; [|apply IH, H].
    unfold res_bind in H |- *.
    destruct (rules_of_level iter_order ts n mc (unguarded_lift ts n) true recs acc)
      as [acc'|e] eqn:E; [|discriminate].
    rewrite (rules_of_level_agree _ _ _ _ _ _ _ E). apply IH, H.
Qed.

Lemma insert_rule_drop (r : rule) (l : list rule) :
  map drop_support_count (insert_rule r l)
  = insert_rule (drop_support_count r) (map drop_support_count l).
Proof.
  induction l as [|y ys IH]; simpl; [reflexivity|].
  change (key_lt (drop_support_count y) (drop_support_count r)) with (key_lt y r).
  destruct (key_lt y r); simpl; [reflexivity|]. rewrite IH. reflexivity.
Qed.

Lemma sort_rules_drop (l : list rule) :
  map drop_support_count (sort_rules l) = sort_rules (map drop_support_count l).
Proof.
  unfold sort_rules.
  assert (H : forall acc,
             map drop_support_count (fold_left (fun acc r => insert_rule r acc) l acc)
             = fold_left (fun acc r => insert_rule r acc) (map drop_support_count l)
                 (map drop_support_count acc)).
  { induction l as [|x l IH]; intros acc; simpl; [reflexivity|].
    rewrite IH, insert_rule_drop. reflexivity. }
  apply H.
Qed.

(** ** The displayed itemsets *)

Lemma insert_count_perm (p : Itemset * nat) (l : list (Itemset * nat)) :
  Permutation (insert_count p l) (p :: l).
Proof.
  induction l as [|y ys IH]; simpl; [auto|].
  destruct (snd y <? snd p); [auto|].
  eapply perm_trans; [apply perm_skip, IH|apply perm_swap].
Qed.

Lemma sort_counts_perm (l : list (Itemset * nat)) : Permutation (sort_counts l) l.
Proof.
  unfold sort_counts.
  assert (H : forall acc, Permutation (fold_left (fun acc p => insert_count p acc) l acc)
                                      (acc ++ l)).
  { induction l as [|x l IH]; intros acc; simpl; [rewrite app_nil_r; auto|].
    eapply perm_trans; [apply IH|].
    eapply perm_trans; [apply Permutation_app_tail, insert_count_perm|].
    simpl. apply Permutation_middle. }
  apply H.
Qed.

Lemma insert_count_sorted (p : Itemset * nat) (l : list (Itemset * nat)) :
  counts_descending l -> counts_descending (insert_count p l).
Proof.
  unfold counts_descending.
  induction l as [|y ys IH]; intros Hl; simpl; [repeat constructor|].
  inversion Hl as [|? ? Hys Hhd]; subst.
  destruct (Nat.ltb_spec (snd y) (snd p)) as [E|E].
  - constructor; [exact Hl|]. constructor. lia.
  - constructor; [apply IH, Hys|].
    destruct ys as [|z zs]; simpl; [constructor; exact E|].
    inversion Hhd; subst. destruct (snd z <? snd p); constructor; assumption.
Qed.

Lemma sort_counts_sorted (l : list (Itemset * nat)) : counts_descending (sort_counts l).
Proof.
  unfold sort_counts.
  assert (H : forall acc, counts_descending acc ->
                counts_descending (fold_left (fun acc p => insert_count p acc) l acc)).
  { induction l as [|x l IH]; intros acc Hacc; simpl; [exact Hacc|].
    apply IH, insert_count_sorted, Hacc. }
  apply H. constructor.
Qed.

Lemma counts_strongly_sorted (l : list (Itemset * nat)) :
  counts_descending l -> StronglySorted (fun a b => snd b <= snd a) l.
Proof.
  apply Sorted_StronglySorted. intros a b c H1 H2. lia.
Qed.

Lemma insert_count_filter (c : nat) (p : Itemset * nat) (l : list (Itemset * nat)) :
  StronglySorted (fun a b => snd b <= snd a) l ->
  filter (fun q => Nat.eqb (snd q) c) (insert_count p l)
  = filter (fun q => Nat.eqb (snd q) c) l
    ++ (if Nat.eqb (snd p) c then [p] else []).
Proof.
  induction l as [|y ys IH]; intros Hl; simpl.
  - destruct (Nat.eqb (snd p) c); reflexivity.
  - inversion Hl as [|? ? Hys Hf]; subst.
    destruct (Nat.ltb_spec (snd y) (snd p)) as [E|E].
    + simpl. destruct (Nat.eqb_spec (snd p) c) as [Ep|Ep].
      * assert (Hnone : forall z, In z (y :: ys) -> Nat.eqb (snd z) c = false).
        { intros z [<-|Hz]; apply Nat.eqb_neq; [lia|].
          rewrite Forall_forall in Hf. specialize (Hf z Hz). lia. }
        assert (Hfil : filter (fun q => Nat.eqb (snd q) c) (y :: ys) = []).
        { clear -Hnone. induction (y :: ys) as [|z zs IHz]; simpl; [reflexivity|].
          rewrite (Hnone z (or_introl eq_refl)).
          apply IHz. intros w Hw. apply Hnone. right. exact Hw. }
        simpl in Hfil. rewrite Hfil. reflexivity.
      * rewrite app_nil_r. reflexivity.
    + simpl. rewrite IH by exact Hys. destruct (Nat.eqb (snd y) c); reflexivity.
Qed.

Lemma sort_counts_stable (c : nat) (l : list (Itemset * nat)) :
  filter (fun q => Nat.eqb (snd q) c) (sort_counts l) = filter (fun q => Nat.eqb (snd q) c) l.
Proof.
  unfold sort_counts.
  assert (H : forall acc, counts_descending acc ->
             filter (fun q => Nat.eqb (snd q) c)
               (fold_left (fun acc p => insert_count p acc) l acc)
             = filter (fun q => Nat.eqb (snd q) c) acc
               ++ filter (fun q => Nat.eqb (snd q) c) l).
  { induction l as [|x l IH]; intros acc Hacc; simpl; [rewrite app_nil_r; reflexivity|].
    rewrite IH by (apply insert_count_sorted, Hacc).
    rewrite insert_count_filter by (apply counts_strongly_sorted, Hacc).
    rewrite <- app_assoc. destruct (Nat.eqb (snd x) c); reflexivity. }
  apply H. constructor.
Qed.

Lemma StronglySorted_app_inv {A} (R : A -> A -> Prop) (l1 l2 : list A) :
  StronglySorted R (l1 ++ l2) -> forall a b, In a l1 -> In b l2 -> R a b.
Proof.
  induction l1 as [|x l1 IH]; intros H a b Ha Hb; [destruct Ha|].
  simpl in H. inversion H as [|? ? H1 Hf]; subst.
  destruct Ha as [<-|Ha].
  - rewrite Forall_forall in Hf. apply Hf, in_or_app. right. exact Hb.
  - apply IH; assumption.
Qed.

(** ** Reading the parameters *)

Lemma accept_support_iff (q : Q) : accept_support q = true <-> (0 <= q)%Q.
Proof.
  unfold accept_support. rewrite orb_true_iff, andb_true_iff, !Qle_bool_iff.
  split; [intros [[H1 H2]|H]; lra|].
  intros H. destruct (Qlt_le_dec q 1); [left; split; lra|right; lra].
Qed.

Lemma accept_confidence_iff (q : Q) : accept_confidence q = true <-> (0 <= q <= 1)%Q.
Proof. unfold accept_confidence. rewrite andb_true_iff, !Qle_bool_iff. reflexivity. Qed.

Lemma ask_accepted (accept : Q -> bool) (d : Q) (answers rest : list answer) (q : Q) :
  ask accept d answers = Some (q, rest) -> accept q = true.
Proof.
  induction answers as [|a answers IH]; simpl; [discriminate|].
  destruct a as [|q'|].
  - destruct (accept d) eqn:E; [intros H; injection H as <- _; exact E|exact IH].
  - destruct (accept q') eqn:E; [intros H; injection H as <- _; exact E|exact IH].
  - exact IH.
Qed.

Lemma StronglySorted_lt_NoDup (l : list Item) : StronglySorted lt l -> NoDup l.
Proof.
  induction 1 as [|x l Hl IH Hf]; constructor; [|exact IH].
  rewrite Forall_forall in Hf. intros Hx. specialize (Hf x Hx). lia.
Qed.

Lemma Qdiv_count_le (sc ca n : nat) :
  0 < ca -> ca <= n -> (Qnat sc / Qnat n <= Qnat sc / Qnat ca)%Q.
Proof.
  intros H1 H2. unfold Qdiv.
  apply Qmult_le_compat_nonneg; split; [apply Qnat_nonneg|apply Qle_refl| |].
  - apply Qinv_le_0_compat, Qnat_nonneg.
  - destruct (Nat.eq_dec ca n) as [->|Hne]; [apply Qle_refl|].
    apply Qlt_le_weak. apply (Qinv_lt_contravar (Qnat ca) (Qnat n)).
    + apply (proj2 (Qnat_lt 0 ca)). exact H1.
    + apply (proj2 (Qnat_lt 0 n)). lia.
    + apply Qnat_lt. lia.
Qed.

Lemma is_frequent_threshold_mono (s : Itemset) (ts : list Transaction) (ms1 ms2 : Q) :
  ((ms1 <= ms2 /\ ms2 < 1) \/ (1 <= ms1 /\ ms1 <= ms2))%Q ->
  is_frequent s ts ms2 = true -> is_frequent s ts ms1 = true.
Proof.
  unfold is_frequent. intros Hms.
  destruct (Qlt_le_dec ms1 1), (Qlt_le_dec ms2 1); rewrite !Qle_bool_iff; intros H;
    try (exfalso; lra).
  - eapply Qle_trans; [|exact H]. apply Qmult_le_compat_r; [lra|apply Qnat_nonneg].
  - lra.
Qed.

Lemma mined_rule_facts (rows : list (list Item)) (ms mc : Q)
  (iter_order : Itemset -> list Item) (tbl : table) (gen : list rule) (r : rule) :
  (forall s, Permutation (iter_order s) s) ->
  ABF.brute_force_mining rows (snd (ABF.load_transactions rows)) ms = Some tbl ->
  unsorted_rules iter_order rows (length rows) mc (guarded_lift rows (length rows)) false tbl
  = Ok gen ->
  In r gen ->
  exists k recs s sc,
    2 <= k /\ In (k, recs) tbl /\ In (s, sc) recs /\ sc = get_support_count s rows
    /\ antecedent r <> [] /\ consequent r <> []
    /\ (forall x, In x s <-> In x (antecedent r) \/ In x (consequent r))
    /\ (forall x, In x (antecedent r) -> ~ In x (consequent r))
    /\ support r = (Qnat sc / Qnat (length rows))%Q
    /\ confidence r = (Qnat sc / Qnat (get_support_count (antecedent r) rows))%Q
    /\ (support r <= confidence r)%Q
    /\ lift r = (if Qlt_le_dec 0 (Qnat (get_support_count (consequent r) rows)
                                  / Qnat (length rows))
                 then confidence r / (Qnat (get_support_count (consequent r) rows)
                                      / Qnat (length rows))
                 else 0)%Q.
Proof.
  intros Hio Hm H Hr.
  destruct (unsorted_rules_In _ _ _ _ _ _ _ _ _ H Hr)
    as [k [recs [s [sc [a [Hk [Hin [Hsc [Ha [Hc [Er [_ [Hn Hlift]]]]]]]]]]]]].
  assert (Hnd : NoDup (snd (ABF.load_transactions rows)))
    by (apply load_items_NoDup; constructor).
  destruct (mined_sound _ _ _ _ Hnd Hm k recs Hin) as [_ Hrec].
  destruct (Hrec s sc Hsc) as [_ [Hlen [Hsort [_ [Hsc_eq _]]]]].
  assert (HndS : NoDup s) by (apply StronglySorted_lt_NoDup, Hsort).
  unfold antecedent_candidates in Ha. apply in_flat_map in Ha.
  destruct Ha as [i [Hi Hai]]. apply in_seq in Hi.
  apply In_combinations in Hai. destruct Hai as [Hsub Hlena].
  rewrite (Permutation_length (Hio s)) in Hi.
  assert (Hincl : incl a s)
    by (intros x Hx; apply (Permutation_in _ (Hio s)), (subseq_incl _ _ Hsub), Hx).
  pose proof (f_equal antecedent Er) as Hant. pose proof (f_equal consequent Er) as Hcons.
  pose proof (f_equal support Er) as Hsup. pose proof (f_equal confidence Er) as Hconf.
  simpl in Hant, Hcons, Hsup, Hconf.
  exists k, recs, s, sc.
  split; [exact Hk|split; [exact Hin|split; [exact Hsc|split; [exact Hsc_eq|]]]].
  rewrite Hant, Hcons, Hsup, Hconf.
  split; [intros ->; simpl in Hlena; lia|].
  split.
  { intros Hnil. assert (Hsa : incl s a).
    { intros x Hx. destruct (mem x a) eqn:E; [apply mem_In, E|].
      exfalso. assert (Hd : In x (set_diff s a))
        by (unfold set_diff; apply filter_In; rewrite E; split; [exact Hx|reflexivity]).
      rewrite Hnil in Hd. destruct Hd. }
    pose proof (NoDup_incl_length HndS Hsa). lia. }
  split.
  { intros x. unfold set_diff. rewrite filter_In. split.
    - intros Hx. destruct (mem x a) eqn:E; [left; apply mem_In, E|right; split; auto].
    - intros [Hx|[Hx _]]; [apply Hincl, Hx|exact Hx]. }
  split.
  { intros x Hx Hd. unfold set_diff in Hd. apply filter_In in Hd.
    apply mem_In in Hx. rewrite Hx in Hd. destruct Hd; discriminate. }
  split; [reflexivity|split; [reflexivity|split]].
  - apply Qdiv_count_le; [lia|apply get_support_count_le].
  - unfold guarded_lift, res_bind, qdiv in Hlift. rewrite Hn in Hlift.
    injection Hlift as <-. rewrite Hconf, Hcons. reflexivity.
Qed.

(** ** Extra properties of the code *)

(** [get_support_count] is anti-monotone: a superset is contained in no
    more transactions than a subset, and no count exceeds the number of
    transactions, which is the count of the empty itemset. *)
Theorem support_count_antimonotone (a s : Itemset) (ts : list Transaction) :
  incl a s ->
  get_support_count s ts <= get_support_count a ts <= length ts
  /\ get_support_count [] ts = length ts.
Proof.
  intros H. split; [split; [apply get_support_count_antimono, H|apply get_support_count_le]|].
  apply get_support_count_nil.
Qed.

(** [is_frequent] is downward closed: every subset of a frequent itemset is
    frequent, under both readings of [min_support]. *)
Theorem is_frequent_downward_closed (a s : Itemset) (ts : list Transaction) (ms : Q) :
  incl a s -> is_frequent s ts ms = true -> is_frequent a ts ms = true.
Proof. apply is_frequent_incl. Qed.

(** Once a level [k] of the loop finds no frequent k-itemset, no larger
    level would find one: stopping there loses nothing. *)
Theorem empty_level_stays_empty (ts : list Transaction) (ms : Q) (il : list Item) (k : nat) :
  ABF.frequent_k ts ms (combinations il k) = [] ->
  forall j, k <= j -> ABF.frequent_k ts ms (combinations il j) = [].
Proof.
  intros H j Hj. induction Hj as [|j Hj IH]; [exact H|apply level_empty_S, IH].
Qed.

(** Every record [(s, c)] under key [k] of the mined table is a frequent
    itemset of [k >= 1] distinct items of the universe, listed in
    increasing order, with [c] its support count; no level lists an
    itemset twice. *)
Theorem mined_table_sound (ts : list Transaction) (all_items : list Item) (ms : Q)
  (tbl : table) :
  NoDup all_items ->
  ABF.brute_force_mining ts all_items ms = Some tbl ->
  forall k recs, In (k, recs) tbl ->
    NoDup (map fst recs)
    /\ forall s c, In (s, c) recs ->
         1 <= k /\ length s = k /\ StronglySorted lt s /\ incl s all_items
         /\ c = get_support_count s ts /\ is_frequent s ts ms = true.
Proof. apply mined_sound. Qed.

(** Every frequent non-empty itemset of items of the universe is in the
    mined table, under the key of its size, in increasing order and with
    its support count. *)
Theorem mined_table_complete (ts : list Transaction) (all_items : list Item) (ms : Q)
  (tbl : table) (s : Itemset) :
  NoDup all_items ->
  ABF.brute_force_mining ts all_items ms = Some tbl ->
  s <> [] -> NoDup s -> incl s all_items -> is_frequent s ts ms = true ->
  exists recs s',
    In (length s, recs) tbl /\ In (s', get_support_count s ts) recs /\ Permutation s' s.
Proof. apply mined_complete. Qed.

(** Lowering [min_support] without crossing 1 keeps every mined record:
    what is mined at [ms2] is mined, under the same key and with the same
    count, at [ms1 <= ms2] when both are below 1 or both are at least 1. *)
Theorem mining_threshold_monotone (ts : list Transaction) (all_items : list Item)
  (ms1 ms2 : Q) (tbl1 tbl2 : table) :
  NoDup all_items ->
  ((ms1 <= ms2 /\ ms2 < 1) \/ (1 <= ms1 /\ ms1 <= ms2))%Q ->
  ABF.brute_force_mining ts all_items ms1 = Some tbl1 ->
  ABF.brute_force_mining ts all_items ms2 = Some tbl2 ->
  forall k recs s c, In (k, recs) tbl2 -> In (s, c) recs ->
    exists recs', In (k, recs') tbl1 /\ In (s, c) recs'.
Proof.
  intros Hnd Hms H1 H2 k recs s c Hin Hsc.
  destruct (mined_sound _ _ _ _ Hnd H2 k recs Hin) as [_ Hrec].
  destruct (Hrec s c Hsc) as [Hk [Hlen [Hsort [Hincl [Hc Hf]]]]].
  pose proof (is_frequent_threshold_mono _ _ _ _ Hms Hf) as Hf1.
  destruct (mined_complete _ _ _ _ s Hnd H1 ltac:(destruct s; simpl in Hlen; [lia|discriminate])
              (StronglySorted_lt_NoDup _ Hsort) Hincl Hf1) as [recs' [s' [Hin' [Hs' Hp]]]].
  assert (Es : s' = s).
  { assert (Hl : NoDup (sort_items all_items))
      by (apply (Permutation_NoDup (Permutation_sym (sort_items_perm all_items))), Hnd).
    destruct (brute_force_mining_records _ _ _ _ _ _ _ _ H1 Hin' Hs') as [Hc1 _].
    destruct (brute_force_mining_records _ _ _ _ _ _ _ _ H2 Hin Hsc) as [Hc2 _].
    apply In_combinations in Hc1. apply In_combinations in Hc2.
    apply (subseq_same_elements (sort_items all_items)); [exact Hl|apply Hc1|apply Hc2|].
    intros y. split; intros Hy.
    - apply (Permutation_in _ Hp), Hy.
    - apply (Permutation_in _ (Permutation_sym Hp)), Hy. }
  subst s'. exists recs'. rewrite Hlen in Hin'. rewrite Hc. split; assumption.
Qed.


(** Every rule [generate_association_rules] or [InteractiveMiner.generate_rules]
    derives from the mined table splits a recorded itemset of size [>= 2]
    into a non-empty antecedent and a non-empty, disjoint consequent; its
    support, confidence and lift are the ratios of support counts the code
    computes, and its support is at most its confidence. *)
Theorem mined_rule_structure (rows : list (list Item)) (ms mc : Q)
  (iter_order : Itemset -> list Item) :
  (forall s, Permutation (iter_order s) s) ->
  forall tbl, ABF.brute_force_mining rows (snd (ABF.load_transactions rows)) ms = Some tbl ->
  forall rules,
    ABFRules.generate_association_rules iter_order tbl rows mc = Ok rules
    \/ IM.generate_rules iter_order (IM.load_transactions rows IM.init) tbl mc = Ok rules ->
  forall r, In r rules ->
  exists k recs s sc,
    2 <= k /\ In (k, recs) tbl /\ In (s, sc) recs /\ sc = get_support_count s rows
    /\ antecedent r <> [] /\ consequent r <> []
    /\ (forall x, In x s <-> In x (antecedent r) \/ In x (consequent r))
    /\ (forall x, In x (antecedent r) -> ~ In x (consequent r))
    /\ support r = (Qnat sc / Qnat (length rows))%Q
    /\ confidence r = (Qnat sc / Qnat (get_support_count (antecedent r) rows))%Q
    /\ (support r <= confidence r)%Q
    /\ lift r = (if Qlt_le_dec 0 (Qnat (get_support_count (consequent r) rows)
                                  / Qnat (length rows))
                 then confidence r / (Qnat (get_support_count (consequent r) rows)
                                      / Qnat (length rows))
                 else 0)%Q.
Proof.
  intros Hio tbl Hm rules Hgen r Hr.
  assert (Hcase : exists gen,
             unsorted_rules iter_order rows (length rows) mc
               (guarded_lift rows (length rows)) false tbl = Ok gen /\ In r gen).
  { destruct Hgen as [H|H].
    - unfold ABFRules.generate_association_rules, res_bind in H.
      destruct (unsorted_rules _ _ _ _ _ _ _) as [gen|] eqn:E; [|discriminate].
      injection H as <-. exists gen. split; [reflexivity|].
      apply (Permutation_in _ (sort_rules_perm gen)), Hr.
    - unfold IM.generate_rules in H.
      cbn [IM.load_transactions IM.init IM.transactions IM.num_transactions] in H.
      destruct tbl as [|p tbl']; [injection H as <-; destruct Hr|].
      unfold res_bind in H.
      destruct (unsorted_rules _ _ _ _ _ _ _) as [gen|] eqn:E; [|discriminate].
      injection H as <-. exists gen. split; [reflexivity|].
      apply (Permutation_in _ (sort_rules_perm gen)), Hr. }
  destruct Hcase as [gen [E Hin]].
  exact (mined_rule_facts rows ms mc iter_order tbl gen r Hio Hm E Hin).
Qed.

(** The three rule generators agree: when [BruteForceMiner] does not raise,
    its rules are those of [generate_association_rules] plus the
    ['support_count'] key; [InteractiveMiner.generate_rules] returns what
    [generate_association_rules] returns on any non-empty table. *)
Theorem rule_generators_agree (iter_order : Itemset -> list Item) :
  (forall m m',
     BFM.num_transactions m = length (BFM.transactions m) ->
     BFM.generate_association_rules iter_order m = Ok m' ->
     ABFRules.generate_association_rules iter_order (BFM.frequent_itemsets m)
       (BFM.transactions m) (BFM.min_confidence m)
     = Ok (map drop_support_count (BFM.association_rules m')))
  /\ (forall self tbl mc,
     IM.num_transactions self = length (IM.transactions self) -> tbl <> [] ->
     IM.generate_rules iter_order self tbl mc
     = ABFRules.generate_association_rules iter_order tbl (IM.transactions self) mc).
Proof.
  split.
  - intros m m' Hn H. unfold BFM.generate_association_rules, res_bind in H.
    destruct (unsorted_rules _ _ _ _ _ _ _) as [l|] eqn:E; [|discriminate].
    injection H as <-. cbn [BFM.with_association_rules BFM.association_rules].
    unfold ABFRules.generate_association_rules. rewrite <- Hn.
    unfold unsorted_rules, res_bind in E |- *.
    destruct (max_key (BFM.frequent_itemsets m)) as [k|]; [|discriminate].
    pose proof (rules_of_levels_agree _ _ _ _ _ _ [] l E) as E'.
    change (map drop_support_count []) with (@nil rule) in E'.
    rewrite E', sort_rules_drop. reflexivity.
  - intros self tbl mc Hn Ht. unfold IM.generate_rules, ABFRules.generate_association_rules.
    destruct tbl as [|p tbl']; [congruence|]. rewrite Hn. reflexivity.
Qed.

(** [BruteForceMiner.get_support] after [load_transactions]: it raises
    [ZeroDivisionError] on zero rows; otherwise it is a fraction in
    [[0, 1]], equal to 1 exactly when every transaction contains the
    itemset. *)
Theorem get_support_range (rows : list (list Item)) (m : BFM.miner) (s : Itemset) :
  (rows = [] -> BFM.get_support (BFM.load_transactions rows m) s = Err ZeroDivisionError)
  /\ (rows <> [] ->
      exists q, BFM.get_support (BFM.load_transactions rows m) s = Ok q
        /\ (0 <= q <= 1)%Q
        /\ ((q == 1)%Q <-> forall t, In t rows -> issubset s t = true)).
Proof.
  unfold BFM.get_support, BFM.get_support_count', qdiv.
  cbn [BFM.load_transactions BFM.transactions BFM.num_transactions].
  split; [intros ->; reflexivity|].
  intros Hne. destruct (Qeq_bool (Qnat (length rows)) 0) eqn:E.
  { apply Qnat_eq0 in E. destruct rows; [congruence|discriminate]. }
  assert (Hpos : (0 < Qnat (length rows))%Q)
    by (apply (Qnat_lt 0); destruct rows; [congruence|simpl; lia]).
  assert (Hnz : ~ (Qnat (length rows) == 0)%Q) by (intros H; apply Qeq_bool_iff in H; congruence).
  eexists. split; [reflexivity|split; [split|]].
  - apply count_ratio_nonneg.
  - apply Qle_shift_div_r; [exact Hpos|]. rewrite Qmult_1_l.
    apply Qnat_le, get_support_count_le.
  - split.
    + intros Hq. apply get_support_count_full. apply Qnat_inj.
      rewrite <- (Qmult_div_r (Qnat (get_support_count s rows)) _ Hnz), Hq.
      apply Qmult_1_r.
    + intros Hall. rewrite (get_support_count_all s rows Hall).
      unfold Qdiv. apply Qmult_inv_r. exact Hnz.
Qed.

(** The records a level displays ([sorted(itemsets, key=lambda x: x[1],
    reverse=True)[:10]]) are the [min(10, n)] records of highest count, in
    descending count order; records of equal count keep their order in the
    table, and the undisplayed rest has no higher count. *)
Theorem displayed_itemsets_top (itemsets : list (Itemset * nat)) :
  length (displayed_itemsets itemsets) = Nat.min 10 (length itemsets)
  /\ counts_descending (displayed_itemsets itemsets)
  /\ Permutation (displayed_itemsets itemsets ++ skipn 10 (sort_counts itemsets)) itemsets
  /\ (forall p q, In p (displayed_itemsets itemsets) ->
        In q (skipn 10 (sort_counts itemsets)) -> snd q <= snd p)
  /\ (forall c, filter (fun q => Nat.eqb (snd q) c) (sort_counts itemsets)
               = filter (fun q => Nat.eqb (snd q) c) itemsets).
Proof.
  unfold displayed_itemsets.
  pose proof (sort_counts_perm itemsets) as Hp.
  pose proof (sort_counts_sorted itemsets) as Hs.
  split; [rewrite length_firstn, (Permutation_length Hp); reflexivity|].
  split.
  { unfold counts_descending in *. revert Hs. generalize (sort_counts itemsets).
    generalize 10. intros n l. revert n.
    induction l as [|x l IH]; intros [|n] H; simpl; [constructor|constructor|constructor|].
    inversion H as [|? ? H1 H2]; subst. constructor; [apply IH, H1|].
    destruct n, l; simpl; constructor. inversion H2; subst. assumption. }
  split; [rewrite firstn_skipn; exact Hp|].
  split; [|intros c; apply sort_counts_stable].
  intros p q Hp' Hq. apply (StronglySorted_app_inv (fun a b : Itemset * nat => snd b <= snd a) (firstn 10 (sort_counts itemsets))
                              (skipn 10 (sort_counts itemsets))); try assumption.
  rewrite firstn_skipn. apply counts_strongly_sorted, Hs.
Qed.

(** [get_parameters] returns only [min_support >= 0] and
    [0 <= min_confidence <= 1]; conversely every [min_support >= 0]
    (including non-integers above 1) and every [min_confidence] in
    [[0, 1]] passes its check and is returned as typed. *)
Theorem get_parameters_valid (answers : list answer) (ms mc : Q) :
  (get_parameters answers = Some (ms, mc) -> (0 <= ms)%Q /\ (0 <= mc <= 1)%Q)
  /\ ((0 <= ms)%Q -> (0 <= mc <= 1)%Q ->
      forall rest, get_parameters (Number ms :: Number mc :: rest) = Some (ms, mc)).
Proof.
  split.
  - unfold get_parameters.
    destruct (ask accept_support (1#5) answers) as [[q rest]|] eqn:E1; [|discriminate].
    destruct (ask accept_confidence (3#5) rest) as [[q' rest']|] eqn:E2; [|discriminate].
    intros H. injection H as <- <-.
    split; [apply accept_support_iff, (ask_accepted _ _ _ _ _ E1)|].
    apply accept_confidence_iff, (ask_accepted _ _ _ _ _ E2).
  - intros Hs Hc rest. unfold get_parameters. cbn [ask].
    rewrite (proj2 (accept_support_iff ms) Hs). cbn [ask].
    rewrite (proj2 (accept_confidence_iff mc) Hc). reflexivity.
Qed.

(** A [BruteForceMiner] reused on a CSV with no rows keeps the items it
    loaded before; with [min_support < 1], every 1-itemset then has count
    [0 >= min_support * 0] and is stored as frequent, and the display of
    that level divides by [num_transactions = 0]:
    [find_frequent_itemsets] raises [ZeroDivisionError]. *)
Theorem bfm_reload_empty_raises (m : BFM.miner) :
  BFM.all_items m <> [] -> (BFM.min_support m < 1)%Q ->
  BFM.find_frequent_itemsets (BFM.load_transactions [] m) = Some (Err ZeroDivisionError).
Proof.
  intros Hne Hms. unfold BFM.find_frequent_itemsets. cbv zeta.
  change (BFM.all_items (BFM.load_transactions [] m)) with (BFM.all_items m).
  destruct (sort_items (BFM.all_items m)) as [|x xs] eqn:E.
  { exfalso. apply Hne. apply Permutation_nil. rewrite <- E. apply sort_items_perm. }
  generalize (length (x :: xs)) as n. intros n.
  assert (Hf : BFM.is_frequent' (BFM.load_transactions [] m) [x] = true).
  { unfold BFM.is_frequent', BFM.get_support_count'. cbn.
    destruct (Qlt_le_dec (BFM.min_support m) 1); [|lra].
    apply Qle_bool_iff. change (Qnat 0) with 0%Q. rewrite Qmult_0_r. apply Qle_refl. }
  assert (Hk : BFM.frequent_k_itemsets (BFM.load_transactions [] m) (combinations (x :: xs) 1)
    = ([x], BFM.get_support_count' (BFM.load_transactions [] m) [x])
      :: BFM.frequent_k_itemsets (BFM.load_transactions [] m) (combinations xs 1)).
  { transitivity (BFM.frequent_k_itemsets (BFM.load_transactions [] m) ([x] :: combinations xs 1)).
    { destruct xs; reflexivity. }
    cbn [BFM.frequent_k_itemsets]. rewrite Hf. reflexivity. }
  cbn [BFM.find_loop]. rewrite Hk.
  cbn [BFM.num_transactions BFM.with_frequent_itemsets BFM.load_transactions].
  rewrite display_supports_zero. reflexivity.
Qed.


(** Parsing an [Items] cell gives one item more than it has commas (so a
    blank cell gives one empty item); each item has no comma and no
    surrounding whitespace. *)
Theorem parse_items_pieces (cell : ustring) :
  length (parse_items cell) = S (length (filter (N.eqb comma) cell))
  /\ forall w, In w (parse_items cell) -> ~ In comma w /\ strip w = w.
Proof.
  unfold parse_items. split; [rewrite length_map; apply split_on_length|].
  intros w Hw. apply in_map_iff in Hw. destruct Hw as [w0 [<- Hw0]].
  split; [|apply strip_idem].
  intros Hc. apply (split_on_pieces comma cell w0 Hw0), (strip_incl w0), Hc.
Qed.

(** Items joined by a comma and whitespace, as [', '.join(...)] and
    [','.join(...)] write them, parse back to the same items when each is
    free of commas and of surrounding whitespace. *)
Theorem parse_join_roundtrip (sp : ustring) (words : list ustring) :
  forallb is_space sp = true -> words <> [] ->
  Forall (fun w => ~ In comma w /\ strip w = w) words ->
  parse_items (join (comma :: sp) words) = words.
Proof.
  intros Hsp Hne Hw.
  assert (Hcsp : ~ In comma sp).
  { intros H. rewrite forallb_forall in Hsp. specialize (Hsp comma H). discriminate. }
  induction words as [|w ws IH]; [congruence|].
  inversion Hw as [|? ? [Hwc Hws] Hrest]; subst.
  destruct ws as [|w' ws'].
  - unfold parse_items. simpl join.
    rewrite <- (app_nil_r w), split_on_prefix by exact Hwc. simpl.
    rewrite app_nil_r, Hws. reflexivity.
  - change (join (comma :: sp) (w :: w' :: ws'))
      with (w ++ comma :: (sp ++ join (comma :: sp) (w' :: ws'))).
    specialize (IH ltac:(discriminate) Hrest).
    remember (join (comma :: sp) (w' :: ws')) as J eqn:EJ. clear EJ.
    unfold parse_items in *.
    rewrite split_on_sep by exact Hwc. rewrite split_on_prefix by exact Hcsp.
    destruct (split_on comma J) as [|w1 ws1] eqn:E;
      [exfalso; apply (split_on_nonnil _ _ E)|].
    simpl. simpl in IH. rewrite Hws. f_equal. rewrite <- IH. f_equal.
    unfold strip. rewrite lstrip_spaces by exact Hsp. reflexivity.
Qed.

(** ** Witnesses: the claims' theorems applied at concrete inputs *)

Lemma mining_terminates_witness :
  ABF.mining_loop 7 [[1;2];[1;2;3];[1];[2;3]] (sort_items [1;2;3]) (1#2) 1 [] <> None.
Proof.
  destruct (mining_terminates [[1;2];[1;2;3];[1];[2;3]] [1;2;3] [] (1#2) 0 (fun s => s))
    as [[tbl [E H]] _].
  rewrite (H 7 ltac:(simpl; lia)). discriminate.
Defined.

Lemma mining_levels_witness :
  exists K, 1 <= K
    /\ ABF.frequent_k [[1;2];[1;2;3];[1];[2;3]] (1#2) (combinations (sort_items [1;2;3]) K) = [].
Proof.
  destruct (mining_levels [[1;2];[1;2;3];[1];[2;3]] [1;2;3] (1#2))
    as [tbl [K [_ [HK [H _]]]]].
  exists K. split; [exact HK|exact H].
Defined.

Lemma min_support_absolute_boundaries_witness : 2 = length [[1;2];[1]].
Proof.
  destruct (min_support_absolute_boundaries [[1;2];[1]] [1;2]) as [_ H].
  exact (proj1 (H ltac:(simpl; lia) [(1, [([1], 2)])] 1 [([1], 2)] [1] 2
                  ltac:(vm_compute; reflexivity) ltac:(left; reflexivity)
                  ltac:(left; reflexivity))).
Defined.

Lemma enumerate_all_k_subsets_witness :
  length (combinations (sort_items [3;1;4;2]) 2) = 6
  /\ In [1;3] (combinations (sort_items [3;1;4;2]) 2).
Proof.
  destruct (enumerate_all_k_subsets [3;1;4;2] 2 ltac:(repeat constructor; simpl; lia))
    as [Hlen [_ [_ [Hall _]]]].
  split; [exact Hlen|].
  destruct (Hall [3;1] ltac:(repeat constructor; simpl; lia) eq_refl
              ltac:(intros y Hy; simpl in *; tauto)) as [c [Hc [Hp _]]].
  assert (E : c = [1;3]).
  { apply In_combinations in Hc. destruct Hc as [Hsub _].
    apply (subseq_same_elements [1;2;3;4]).
    - repeat constructor; simpl; lia.
    - exact Hsub.
    - repeat constructor.
    - intros y. split; intros Hy.
      + apply (Permutation_in _ Hp) in Hy. simpl in *. tauto.
      + apply (Permutation_in _ (Permutation_sym Hp)). simpl in *. tauto. }
  subst c. exact Hc.
Defined.

Lemma rule_confidence_bounds_witness :
  Forall (confidence_ok (1#2) (3#5))
    (sort_rules
       [mk_rule [1] [2] (2#4) (2#3) (8#9) None;
        mk_rule [2] [1] (2#4) (2#3) (8#9) None;
        mk_rule [2] [3] (2#4) (2#3) (8#6) None;
        mk_rule [3] [2] (2#4) (2#2) (8#6) None]).
Proof.
  apply (proj1 (rule_confidence_bounds [[1;2];[1;2;3];[1];[2;3]] (1#2) (3#5) (fun s => s)
                  (fun s x H => H)
                  [(1, [([1], 3); ([2], 3); ([3], 2)]); (2, [([1;2], 2); ([2;3], 2)])]
                  ltac:(vm_compute; reflexivity))).
  vm_compute. reflexivity.
Defined.

Lemma rules_sorted_stably_witness :
  Sorted key_ge
    (sort_rules
       [mk_rule [1] [2] (2#4) (2#3) (8#9) None;
        mk_rule [2] [1] (2#4) (2#3) (8#9) None;
        mk_rule [2] [3] (2#4) (2#3) (8#6) None;
        mk_rule [3] [2] (2#4) (2#2) (8#6) None]).
Proof.
  destruct (proj1 (rules_sorted_stably (fun s => s))
              [(1, [([1], 3); ([2], 3); ([3], 2)]); (2, [([1;2], 2); ([2;3], 2)])]
              [[1;2];[1;2;3];[1];[2;3]] (3#5) _ ltac:(vm_compute; reflexivity))
    as [gen [_ [Hs _]]].
  exact Hs.
Defined.

Lemma support_count_antimonotone_witness :
  incl [1] [1;2]
  /\ get_support_count [1;2] [[1;2];[1;2;3];[1];[2;3]]
     <= get_support_count [1] [[1;2];[1;2;3];[1];[2;3]] <= length [[1;2];[1;2;3];[1];[2;3]]
  /\ get_support_count [] [[1;2];[1;2;3];[1];[2;3]] = length [[1;2];[1;2;3];[1];[2;3]].
Proof.
  assert (H : incl [1] [1;2]) by (intros x Hx; simpl in *; tauto).
  split; [exact H|].
  apply (support_count_antimonotone [1] [1;2] [[1;2];[1;2;3];[1];[2;3]] H).
Defined.

Lemma is_frequent_downward_closed_witness :
  is_frequent [1;2] [[1;2];[1;2;3];[1];[2;3]] (1#2) = true
  /\ is_frequent [2] [[1;2];[1;2;3];[1];[2;3]] (1#2) = true.
Proof.
  split; [vm_compute; reflexivity|].
  apply (is_frequent_downward_closed [2] [1;2] [[1;2];[1;2;3];[1];[2;3]] (1#2)).
  - intros x Hx; simpl in *; tauto.
  - vm_compute. reflexivity.
Defined.

Lemma empty_level_stays_empty_witness :
  ABF.frequent_k [[1;2];[1;2;3];[1];[2;3]] (1#2) (combinations [1;2;3] 3) = []
  /\ ABF.frequent_k [[1;2];[1;2;3];[1];[2;3]] (1#2) (combinations [1;2;3] 5) = [].
Proof.
  assert (H : ABF.frequent_k [[1;2];[1;2;3];[1];[2;3]] (1#2) (combinations [1;2;3] 3) = [])
    by (vm_compute; reflexivity).
  split; [exact H|].
  apply (empty_level_stays_empty [[1;2];[1;2;3];[1];[2;3]] (1#2) [1;2;3] 3 H 5). lia.
Defined.

Lemma mined_table_sound_witness :
  ABF.brute_force_mining [[1;2];[1;2;3];[1];[2;3]] [1;2;3] (1#2)
  = Some [(1, [([1], 3); ([2], 3); ([3], 2)]); (2, [([1;2], 2); ([2;3], 2)])]
  /\ NoDup (map fst [([1;2], 2); ([2;3], 2)])
  /\ forall s c, In (s, c) [([1;2], 2); ([2;3], 2)] ->
       1 <= 2 /\ length s = 2 /\ StronglySorted lt s /\ incl s [1;2;3]
       /\ c = get_support_count s [[1;2];[1;2;3];[1];[2;3]]
       /\ is_frequent s [[1;2];[1;2;3];[1];[2;3]] (1#2) = true.
Proof.
  assert (E : ABF.brute_force_mining [[1;2];[1;2;3];[1];[2;3]] [1;2;3] (1#2)
              = Some [(1, [([1], 3); ([2], 3); ([3], 2)]); (2, [([1;2], 2); ([2;3], 2)])])
    by (vm_compute; reflexivity).
  split; [exact E|].
  apply (mined_table_sound [[1;2];[1;2;3];[1];[2;3]] [1;2;3] (1#2) _
           ltac:(repeat constructor; simpl; lia) E 2).
  right; left; reflexivity.
Defined.

Lemma mined_table_complete_witness :
  exists recs s',
    In (length [2;1], recs) [(1, [([1], 3); ([2], 3); ([3], 2)]); (2, [([1;2], 2); ([2;3], 2)])]
    /\ In (s', get_support_count [2;1] [[1;2];[1;2;3];[1];[2;3]]) recs
    /\ Permutation s' [2;1].
Proof.
  apply (mined_table_complete [[1;2];[1;2;3];[1];[2;3]] [1;2;3] (1#2) _ [2;1]).
  - repeat constructor; simpl; lia.
  - vm_compute. reflexivity.
  - discriminate.
  - repeat constructor; simpl; lia.
  - intros x Hx; simpl in *; tauto.
  - vm_compute. reflexivity.
Defined.

Lemma mining_threshold_monotone_witness :
  exists recs', In (2, recs') [(1, [([1], 3); ([2], 3); ([3], 2)]);
                               (2, [([1;2], 2); ([1;3], 1); ([2;3], 2)]);
                               (3, [([1;2;3], 1)])]
                /\ In ([2;3], 2) recs'.
Proof.
  apply (mining_threshold_monotone [[1;2];[1;2;3];[1];[2;3]] [1;2;3] (1#4) (1#2) _
           [(1, [([1], 3); ([2], 3); ([3], 2)]); (2, [([1;2], 2); ([2;3], 2)])]
           ltac:(repeat constructor; simpl; lia)
           ltac:(left; split; [apply Qle_bool_iff|apply Qlt_alt]; reflexivity)
           ltac:(vm_compute; reflexivity) ltac:(vm_compute; reflexivity)
           2 [([1;2], 2); ([2;3], 2)]).
  - right; left; reflexivity.
  - right; left; reflexivity.
Defined.


Lemma mined_rule_structure_witness :
  exists k recs s sc,
    2 <= k /\ In (k, recs) [(1, [([1], 3); ([2], 3); ([3], 2)]); (2, [([1;2], 2); ([2;3], 2)])]
    /\ In (s, sc) recs /\ sc = get_support_count s [[1;2];[1;2;3];[1];[2;3]]
    /\ [3] <> [] /\ [2] <> []
    /\ (forall x, In x s <-> In x [3] \/ In x [2])
    /\ (forall x, In x [3] -> ~ In x [2])
    /\ 2#4 = Qdiv (Qnat sc) (Qnat 4)
    /\ 2#2 = Qdiv (Qnat sc) (Qnat (get_support_count [3] [[1;2];[1;2;3];[1];[2;3]]))
    /\ Qle (2#4) (2#2)
    /\ 8#6 = (if Qlt_le_dec 0%Q
                  (Qdiv (Qnat (get_support_count [2] [[1;2];[1;2;3];[1];[2;3]])) (Qnat 4))
              then Qdiv (2#2)
                     (Qdiv (Qnat (get_support_count [2] [[1;2];[1;2;3];[1];[2;3]])) (Qnat 4))
              else 0%Q).
Proof.
  apply (mined_rule_structure [[1;2];[1;2;3];[1];[2;3]] (1#2) (3#5) (fun s => s)
           (fun s => Permutation_refl s) _ ltac:(vm_compute; reflexivity)
           [mk_rule [3] [2] (2#4) (2#2) (8#6) None; mk_rule [1] [2] (2#4) (2#3) (8#9) None;
            mk_rule [2] [1] (2#4) (2#3) (8#9) None; mk_rule [2] [3] (2#4) (2#3) (8#6) None]
           ltac:(left; vm_compute; reflexivity)
           (mk_rule [3] [2] (2#4) (2#2) (8#6) None)).
  left. reflexivity.
Defined.

Lemma get_parameters_valid_witness :
  get_parameters [NotANumber; Number (3#2); Number 2; Blank] = Some (3#2, 3#5)
  /\ (0 <= 3#2)%Q /\ (0 <= 3#5 <= 1)%Q.
Proof.
  assert (E : get_parameters [NotANumber; Number (3#2); Number 2; Blank] = Some (3#2, 3#5))
    by reflexivity.
  split; [exact E|]. apply (proj1 (get_parameters_valid _ _ _) E).
Defined.

Lemma parse_join_roundtrip_witness :
  parse_items (join [comma; 32%N] [[97%N]; [98%N; 99%N]]) = [[97%N]; [98%N; 99%N]].
Proof.
  apply parse_join_roundtrip.
  - reflexivity.
  - discriminate.
  - repeat constructor.
    + intros [H|[]]. discriminate.
    + intros [H|[H|[]]]; discriminate.
Defined.

Lemma bfm_reload_empty_raises_witness :
  BFM.find_frequent_itemsets
    (BFM.load_transactions [] (BFM.mk_miner (1#2) (3#5) [] 0 [1;2] [] []))
  = Some (Err ZeroDivisionError).
Proof.
  apply bfm_reload_empty_raises.
  - discriminate.
  - apply Qlt_alt. reflexivity.
Defined.
